(** * validator.js: field validators and the model evaluation procedure

    A shallow embedding of [validator.js] (openbadges-backpack): the
    validator constructors [RegEx], [ISODate], [Email], [MaxLength] and
    [URL], the field builders [required] and [optional], the three declared
    models, the method [errors] of a model instance and the exported
    function [validate].

    JavaScript strings are sequences of UTF-16 code units ([list N]); raw
    record values are the scalar JSON values; thrown values are [Error]
    objects; the mutable locals of [errors] live in an explicit store that
    is threaded through a state-and-exception monad. *)

From Stdlib Require Import ZArith NArith List String Ascii Bool Lia DecimalString.
From stdpp Require Import gmap strings list fin_maps.

Local Open Scope string_scope.
Local Open Scope list_scope.
Local Open Scope nat_scope.

(** ** Strings *)

(** A JavaScript string: its UTF-16 code units. *)
Abbreviation jsstring := (list N).

(** The code units of an ASCII/Latin-1 literal of the source. *)
Fixpoint str (s : string) : jsstring :=
  match s with
  | EmptyString => []
  | String c t => N_of_ascii c :: str t
  end.

Definition code (c : ascii) : N := N_of_ascii c.

Arguments str : simpl never.
Arguments code : simpl never.

(** ** Regular expressions

    The pattern language used by the four literals of the file: characters,
    character classes (possibly negated), concatenation, alternation,
    greedy [*], the assertions [^] and [$] (no [m] flag), and capturing
    groups.  Non-capturing groups [(?:...)] are plain bracketing.  None of
    the literals carries a flag: matching is case-sensitive and works on
    code units. *)

Inductive regex : Type :=
| Empty
| Chr (c : N)
| Class (negated : bool) (ranges : list (N * N))
| Seq (r1 r2 : regex)
| Alt (r1 r2 : regex)
| Star (r : regex)
| Bol
| Eol
| Capture (r : regex).

Declare Scope re_scope.
Delimit Scope re_scope with re.
Bind Scope re_scope with regex.
Infix "⋅" := Seq (at level 40, left associativity) : re_scope.

(** [r+] and [r?]. *)
Definition Plus (r : regex) : regex := Seq r (Star r).
Definition Opt (r : regex) : regex := Alt r Empty.

Definition in_ranges (ranges : list (N * N)) (c : N) : bool :=
  existsb (fun lh => (fst lh <=? c)%N && (c <=? snd lh)%N) ranges.

Definition class_mem (negated : bool) (ranges : list (N * N)) (c : N) : bool :=
  xorb negated (in_ranges ranges c).

Definition one (c : ascii) : N * N := (code c, code c).
Definition rng (lo hi : ascii) : N * N := (code lo, code hi).

(** [\s]: the WhiteSpace and LineTerminator code units of the language
    definition (U+180E, which engines of Unicode before 6.3 also count, is
    not among them). *)
Definition whitespace : list (N * N) :=
  [ (9, 13); (32, 32); (160, 160); (5760, 5760); (8192, 8202); (8232, 8233);
    (8239, 8239); (8287, 8287); (12288, 12288); (65279, 65279) ]%N.

(** The code units [.] does not match. *)
Definition line_terminators : list (N * N) :=
  [ (10, 10); (13, 13); (8232, 8233) ]%N.

Definition Dot : regex := Class true line_terminators.
Definition digit : regex := Class false [rng "0" "9"].          (* \d *)
Definition nonspace : regex := Class true whitespace.           (* \S, [^\s] *)

(** *** Matching

    [ends r s i] lists the positions [j] such that [r] matches the code
    units of [s] from position [i] up to [j].  The engine's backtracking
    explores exactly these alternatives, so a match starting at [i] exists
    iff the list is not empty.  As in the language definition, an
    iteration of [*] that consumes nothing is not repeated, which bounds
    the number of iterations by the remaining length. *)

Definition at_char (p : N -> bool) (s : jsstring) (i : nat) : list nat :=
  match s !! i with
  | Some c => if p c then [S i] else []
  | None => []
  end.

Fixpoint star_ends (body : nat -> list nat) (fuel i : nat) : list nat :=
  i :: match fuel with
       | O => []
       | S n => flat_map (fun j => if (i <? j)%nat then star_ends body n j else [])
                         (body i)
       end.

Fixpoint ends (r : regex) (s : jsstring) (i : nat) : list nat :=
  match r with
  | Empty => [i]
  | Chr c => at_char (N.eqb c) s i
  | Class negated ranges => at_char (class_mem negated ranges) s i
  | Seq r1 r2 => flat_map (ends r2 s) (ends r1 s i)
  | Alt r1 r2 => ends r1 s i ++ ends r2 s i
  | Star r => star_ends (ends r s) (length s - i)%nat i
  | Bol => if (i =? 0)%nat then [i] else []
  | Eol => if (i =? length s)%nat then [i] else []
  | Capture r => ends r s i
  end.

Definition matches_at (r : regex) (s : jsstring) (i : nat) : bool :=
  match ends r s i with
  | [] => false
  | _ :: _ => true
  end.

(** [regex.test] on a string, for a pattern without the [g] flag: try every
    start index from [0] to the length of the string. *)
Definition test (r : regex) (s : jsstring) : bool :=
  existsb (matches_at r s) (seq 0 (S (length s))).

(** *** The four pattern literals of the file *)

(** [[a-z0-9!#$%&'*+/=?^_`{|}~-]] *)
Definition atext : regex :=
  Class false
    [ rng "a" "z"; rng "0" "9"; one "!"; one "#"; one "$"; one "%"; one "&";
      one "'"; one "*"; one "+"; one "/"; one "="; one "?"; one "^"; one "_";
      one "`"; one "{"; one "|"; one "}"; one "~"; one "-" ].

(** [[a-z0-9]] and [[a-z0-9-]] *)
Definition alnum : regex := Class false [rng "a" "z"; rng "0" "9"].
Definition alnum_hyphen : regex := Class false [rng "a" "z"; rng "0" "9"; one "-"].

(** [[a-z0-9](?:[a-z0-9-]*[a-z0-9])?] *)
Definition label : regex := (alnum ⋅ Opt (Star alnum_hyphen ⋅ alnum))%re.

(** [/[a-z0-9!#$%&'*+/=?^_`{|}~-]+(?:\.[a-z0-9!#$%&'*+/=?^_`{|}~-]+)*@(?:[a-z0-9](?:[a-z0-9-]*[a-z0-9])?\.)+[a-z0-9](?:[a-z0-9-]*[a-z0-9])?/] *)
Definition email_regex : regex :=
  (Plus atext ⋅ Star (Chr (code ".") ⋅ Plus atext) ⋅ Chr (code "@")
   ⋅ Plus (label ⋅ Chr (code ".")) ⋅ label)%re.

(** The members of [[^\s\/$.?#]], before negation. *)
Definition url_excluded : list (N * N) :=
  whitespace ++ [one "/"; one "$"; one "."; one "?"; one "#"].

(** [/^(https?):\/\/[^\s\/$.?#].[^\s]*$/] *)
Definition fq_url : regex :=
  (Bol
   ⋅ Capture (Chr (code "h") ⋅ Chr (code "t") ⋅ Chr (code "t") ⋅ Chr (code "p")
              ⋅ Opt (Chr (code "s")))
   ⋅ Chr (code ":") ⋅ Chr (code "/") ⋅ Chr (code "/")
   ⋅ Class true url_excluded
   ⋅ Dot ⋅ Star nonspace ⋅ Eol)%re.

(** [/^\/\S+$/] *)
Definition local_url : regex := (Bol ⋅ Chr (code "/") ⋅ Plus nonspace ⋅ Eol)%re.

(** [/v?\d+\.\d+\.d+/]: the last segment is the letter [d], as written. *)
Definition version_regex : regex :=
  (Opt (Chr (code "v")) ⋅ Plus digit ⋅ Chr (code ".") ⋅ Plus digit
   ⋅ Chr (code ".") ⋅ Plus (Chr (code "d")))%re.

(** ** Raw values *)

(** The values a record holds: the scalar JSON values, and [undefined] for
    an absent property.  Arrays and objects are left out: a validator
    converts them to a string ([regex.test] and [Date.parse]) or reads
    their [length], so that [Email] accepts the array [['b@example.com']]
    as it accepts the string; what is proved of the values below is
    proved of scalars, and no statement concludes that a value is a string
    from the absence of the other values.  Numbers are the integer-valued
    ones that a double holds exactly and prints in plain decimal notation
    (at most [2^53] in absolute value); [NaN], infinities and fractions are
    left out. *)
Inductive value : Type :=
| VUndefined
| VNull
| VBool (b : bool)
| VNum (z : Z)
| VStr (s : jsstring).

(** Truthiness, as tested by [!v] and [if (v)]. *)
Definition ToBoolean (v : value) : bool :=
  match v with
  | VUndefined | VNull => false
  | VBool b => b
  | VNum z => negb (z =? 0)%Z
  | VStr s => negb (bool_decide (s = []))
  end.

(** The string conversion applied by [regex.test] and [Date.parse].  A
    number prints as its decimal numeral, with a minus sign when
    negative. *)
Definition ToString (v : value) : jsstring :=
  match v with
  | VUndefined => str "undefined"
  | VNull => str "null"
  | VBool true => str "true"
  | VBool false => str "false"
  | VNum z => str (NilZero.string_of_int (Z.to_int z))
  | VStr s => s
  end.

(** ** Thrown values and completions *)

Inductive error_class : Type := ClassError | ClassTypeError.

(** An [Error] object: its class, its [message], and the [type] property
    that [ValidationError] adds. *)
Record Error : Type := mkError {
  class : error_class;
  message : jsstring;
  type : option jsstring
}.

(** [var ValidationError = function(type) { var e = new Error(type); e.type=type; return e; }] *)
Definition ValidationError (type : jsstring) : Error :=
  {| class := ClassError; message := type; type := Some type |}.

Definition TypeError (message : jsstring) : Error :=
  {| class := ClassTypeError; message := message; type := None |}.

Inductive completion (A : Type) : Type :=
| Normal (a : A)
| Throw (e : Error).
Arguments Normal {A} a.
Arguments Throw {A} e.

(** [try { c } catch (e) { handler e }] for code without side effects. *)
Definition try_catch {A} (c : completion A) (handler : Error -> completion A)
  : completion A :=
  match c with
  | Normal a => Normal a
  | Throw e => handler e
  end.

(** A validator: a function of one raw value that returns or throws. *)
Definition validator : Type := value -> completion unit.

(** ** The host

    What the file takes from the JavaScript engine and that the language
    definition leaves to it: the result of [Date.parse] ([None] is [NaN]),
    the day of the month of a time value in local time, and the message of
    the [TypeError] raised by reading a property of [undefined] or
    [null]. *)
Record host : Type := {
  Date_parse : jsstring -> option Z;
  DateFromLocalTime : Z -> Z;
  cannot_read_property : string -> value -> jsstring
}.

Section Validator.

Variable h : host.

(** *** Validator constructors *)

(** [var RegEx = function(regex){ return function(input){
      if (!regex.test(input)) throw new ValidationError('regexp'); }; };] *)
Definition RegEx (re : regex) : validator := fun input =>
  if negb (test re (ToString input))
  then Throw (ValidationError (str "regexp"))
  else Normal tt.

(** [new Date(tv)]: the time value, clipped. *)
Definition new_Date (tv : option Z) : option Z :=
  match tv with
  | Some t => if (Z.abs t <=? 8640000000000000)%Z then Some t else None
  | None => None
  end.

Definition getDate (d : option Z) : option Z :=
  match d with
  | Some t => Some (DateFromLocalTime h t)
  | None => None
  end.

Definition isNaN (n : option Z) : bool :=
  match n with
  | Some _ => false
  | None => true
  end.

(** [var ISODate = function(){ return function(input){
      var parsed = new Date(Date.parse(input))
      if (isNaN(parsed.getDate())) throw new ValidationError('isodate'); }; };] *)
Definition ISODate : validator := fun input =>
  let parsed := new_Date (Date_parse h (ToString input)) in
  if isNaN (getDate parsed)
  then Throw (ValidationError (str "isodate"))
  else Normal tt.

(** [var Email = function(){ var regex = /.../; return RegEx(regex); };] *)
Definition Email : validator :=
  let regex := email_regex in
  RegEx regex.

(** [input.length]: a number for a string, [undefined] ([None]) for a
    boolean or a number, a [TypeError] for [undefined] and [null]. *)
Definition get_length (input : value) : completion (option Z) :=
  match input with
  | VStr s => Normal (Some (Z.of_nat (length s)))
  | VBool _ | VNum _ => Normal None
  | VUndefined | VNull => Throw (TypeError (cannot_read_property h "length" input))
  end.

(** [l > len], where [undefined > len] is false. *)
Definition gt (l : option Z) (len : Z) : bool :=
  match l with
  | Some n => (len <? n)%Z
  | None => false
  end.

(** [var MaxLength = function(len){ return function(input) {
      if (input.length > len) throw new ValidationError('length'); }; };] *)
Definition MaxLength (len : Z) : validator := fun input =>
  match get_length input with
  | Throw e => Throw e
  | Normal l =>
      if gt l len then Throw (ValidationError (str "length")) else Normal tt
  end.

(** [var URL = function(){ var fq_url = /.../; var local_url = /.../;
      return function(input) {
        try { RegEx(fq_url)(input) } catch(e) { RegEx(local_url)(input) } }; };] *)
Definition URL : validator := fun input =>
  try_catch (RegEx fq_url input) (fun e => RegEx local_url input).

End Validator.

(** *** Field descriptors *)

Module Field.
Record t : Type := mk { required : bool; validators : list validator }.
End Field.

(** [var field = function(required, validators){ return { required: required, validators: validators }; };] *)
Definition field (required : bool) (validators : list validator) : Field.t :=
  Field.mk required validators.
Definition required (arguments : list validator) : Field.t := field true arguments.
Definition optional (arguments : list validator) : Field.t := field false arguments.

(** ** Objects *)

(** The per-field object [err] and the entries of the returned array: a
    mapping from field names to error kinds. *)
Abbreviation entry := (gmap string jsstring).

(** A record supplied by the caller. *)
Abbreviation record := (gmap string value).

(** A [fields] table: the properties of the object literal, in the order
    [Object.keys] enumerates them. *)
Abbreviation fields_table := (list (string * Field.t)).

Definition Object_keys (fields : fields_table) : list string := fields.*1.

(** [fields[k]], [undefined] ([None]) when there is no such property. *)
Fixpoint get_field (fields : fields_table) (k : string) : option Field.t :=
  match fields with
  | [] => None
  | (k', f) :: rest => if decide (k' = k) then Some f else get_field rest k
  end.

(** The names of the properties every object inherits from
    [Object.prototype]: those of the language definition, and the legacy
    ones of V8. *)
Definition Object_prototype_names : list string :=
  [ "constructor"; "toString"; "toLocaleString"; "valueOf";
    "hasOwnProperty"; "isPrototypeOf"; "propertyIsEnumerable";
    "__proto__"; "__defineGetter__"; "__defineSetter__";
    "__lookupGetter__"; "__lookupSetter__" ].

(** An ordinary name: one that names no inherited property.  For such a
    name, and for such a name only, [o[k]] is the own property [k] of [o],
    and [undefined] when [o] has none. *)
Definition ordinary (k : string) : Prop := k ∉ Object_prototype_names.

#[global] Instance ordinary_dec k : Decision (ordinary k) :=
  decide (k ∉ Object_prototype_names).

(** A table whose field names are all ordinary. *)
Definition ordinary_names (fields : fields_table) : Prop :=
  Forall ordinary (Object_keys fields).

#[global] Instance ordinary_names_dec fields : Decision (ordinary_names fields) :=
  decide (Forall ordinary (Object_keys fields)).

(** [provided[k]] for an ordinary name [k]: the own property, [undefined]
    when the record has none.  For an inherited name that the record does
    not hold, [provided[k]] is the inherited value (for [constructor], the
    function [Object]), which this lookup does not give: the statements
    about arbitrary tables assume [ordinary_names], and the three declared
    tables have ordinary names only. *)
Definition get (provided : record) (k : string) : value :=
  default VUndefined (provided !! k).

(** [if (err[k])]: a kind that is present and not the empty string. *)
Definition truthy (kind : option jsstring) : bool :=
  match kind with
  | Some (_ :: _) => true
  | _ => false
  end.

(** ** The store and the monad of [errors]

    [errors] mutates two locals, the array [errors] and the object [err] of
    the current field.  The store holds both, and a trace of the calls
    made; the trace is ghost state, written and never read. *)

Inductive event : Type :=
| EvErrors                                            (* [errors] was entered *)
| EvCall (k : string) (v : validator) (input : value). (* [validator(provided[k])] *)

Record store : Type := mkStore {
  errors_var : list entry;
  err_var : entry;
  trace : list event
}.

Definition M (A : Type) : Type := store -> completion A * store.

Definition ret {A} (a : A) : M A := fun s => (Normal a, s).

Definition bind {A B} (m : M A) (f : A -> M B) : M B := fun s =>
  match m s with
  | (Normal a, s') => f a s'
  | (Throw e, s') => (Throw e, s')
  end.

Definition throw {A} (e : Error) : M A := fun s => (Throw e, s).

(** [try { m } catch (e) { handler e }]: the effects of [m] are kept. *)
Definition try_catchM {A} (m : M A) (handler : Error -> M A) : M A := fun s =>
  match m s with
  | (Normal a, s') => (Normal a, s')
  | (Throw e, s') => handler e s'
  end.

#[global] Instance M_ret : MRet M := @ret.
#[global] Instance M_bind : MBind M := fun A B f m => bind m f.

Definition emit (ev : event) : M unit := fun s =>
  (Normal tt, mkStore (errors_var s) (err_var s) (trace s ++ [ev])).

(** [var errors = []] and [var err = {}]. *)
Definition new_errors : M unit := fun s =>
  (Normal tt, mkStore [] (err_var s) (trace s)).
Definition new_err : M unit := fun s =>
  (Normal tt, mkStore (errors_var s) ∅ (trace s)).

(** [err[k] = kind] *)
Definition assign_err (k : string) (kind : jsstring) : M unit := fun s =>
  (Normal tt, mkStore (errors_var s) (<[k := kind]> (err_var s)) (trace s)).

(** [err[k]] for an ordinary name [k]: the kind assigned, if any.  For an
    inherited name with nothing assigned, [err[k]] is the inherited value,
    which is truthy, and the empty [err] is pushed; see [ordinary]. *)
Definition read_err (k : string) : M (option jsstring) := fun s =>
  (Normal (err_var s !! k), s).

(** [errors.push(err)] *)
Definition push_err : M unit := fun s =>
  (Normal tt, mkStore (errors_var s ++ [err_var s]) (err_var s) (trace s)).

Definition read_errors : M (list entry) := fun s => (Normal (errors_var s), s).

(** [validator(input)], recorded in the trace. *)
Definition call (k : string) (v : validator) (input : value) : M unit := fun s =>
  (v input, mkStore (errors_var s) (err_var s) (trace s ++ [EvCall k v input])).

(** [l.forEach(f)] *)
Fixpoint forEach {A} (l : list A) (f : A -> M unit) : M unit :=
  match l with
  | [] => ret tt
  | x :: l' => f x;; forEach l' f
  end.

(** ** Models *)

(** An instance of a model: [this.fields] (found on the prototype) and
    [this.data]. *)
Module Model.
Record t : Type := mk { fields : fields_table; data : record }.
End Model.

(** A constructor made by [model_factory]: what matters of it is the
    [fields] table of its prototype. *)
Record constructor : Type := { prototype_fields : fields_table }.

(** [var model = function(data){ this.data = data || {}; }
     model.prototype.fields = {}] *)
Definition model_factory : constructor := {| prototype_fields := [] |}.

(** [C.prototype.fields = fields], done once for each declared model
    before any instance is made. *)
Definition set_prototype_fields (C : constructor) (fields : fields_table)
  : constructor :=
  {| prototype_fields := fields |}.

(** [new C(data)] with [this.data = data || {}]; [None] stands for a
    missing or falsy argument, [Some r] for a record. *)
Definition new (C : constructor) (data : option record) : Model.t :=
  Model.mk (prototype_fields C) (default ∅ data).

Section Model.

Variable h : host.

(** [fields[k]] where a property of it is read next: reading a property of
    [undefined] throws. *)
Definition field_of (fields : fields_table) (k : string) (property : string)
  : M Field.t :=
  match get_field fields k with
  | Some f => ret f
  | None => throw (TypeError (cannot_read_property h property VUndefined))
  end.

(** [!provided[k] && fields[k].required] *)
Definition missing (fields : fields_table) (provided : record) (k : string)
  : M bool :=
  if negb (ToBoolean (get provided k))
  then f ← field_of fields k "required"; ret (Field.required f)
  else ret false.

(** The callback of [expected.forEach]. *)
Definition check_field (fields : fields_table) (provided : record) (k : string)
  : M unit :=
  new_err;;
  is_missing ← missing fields provided k;
  (if is_missing : bool
   then assign_err k (str "missing")
   else
     f ← field_of fields k "validators";
     forEach (Field.validators f) (fun validator =>
       try_catchM (call k validator (get provided k))
                  (fun e => assign_err k (message e))));;
  kind ← read_err k;
  if truthy kind then push_err else ret tt.

(** [model.prototype.errors] *)
Definition errors (this : Model.t) : M (list entry) :=
  emit EvErrors;;
  new_errors;;
  let fields := Model.fields this in
  let provided := Model.data this in
  let expected := Object_keys fields in
  forEach expected (check_field fields provided);;
  read_errors.

(** *** The declared models *)

Definition Assertion : constructor :=
  set_prototype_fields model_factory
    [ ("recipient", required [Email]);
      ("evidence", optional [URL]);
      ("expires", optional [ISODate h]);
      ("issued_at", optional [ISODate h]) ].

Definition Badge : constructor :=
  set_prototype_fields model_factory
    [ ("version", required [RegEx version_regex]);
      ("name", required [MaxLength h 128]);
      ("description", required [MaxLength h 128]);
      ("image", required [URL]);
      ("criteria", required [URL]) ].

Definition Issuer : constructor :=
  set_prototype_fields model_factory
    [ ("name", required [MaxLength h 128]);
      ("org", optional [MaxLength h 128]);
      ("contact", optional [Email]);
      ("url", optional [URL]) ].

End Model.

(** *** The exported function *)

Record result : Type := { status : jsstring; error : list entry }.

(** What [validate] may be given: a record, or any raw value. *)
Inductive argument : Type :=
| ArgRecord (r : record)
| ArgValue (v : value).

(** [exports.validate = function(assertion){ return { status: 'okay', error: [] }; };] *)
Definition validate (assertion : argument) : M result :=
  ret {| status := str "okay"; error := [] |}.

(** The store a call starts from. *)
Definition initial : store := mkStore [] ∅ [].

Definition run {A} (m : M A) : completion A * store := m initial.

(** * Notions used to state the properties *)

(** ** The meaning of a pattern

    [matches s r i j]: the pattern [r] matches the code units of [s] from
    position [i] up to position [j]. *)
Inductive matches (s : jsstring) : regex -> nat -> nat -> Prop :=
| M_Empty i : matches s Empty i i
| M_Chr c i : s !! i = Some c -> matches s (Chr c) i (S i)
| M_Class negated ranges c i :
    s !! i = Some c -> class_mem negated ranges c = true ->
    matches s (Class negated ranges) i (S i)
| M_Seq r1 r2 i j k :
    matches s r1 i j -> matches s r2 j k -> matches s (Seq r1 r2) i k
| M_Alt_l r1 r2 i j : matches s r1 i j -> matches s (Alt r1 r2) i j
| M_Alt_r r1 r2 i j : matches s r2 i j -> matches s (Alt r1 r2) i j
| M_Star_stop r i : matches s (Star r) i i
| M_Star_step r i j k :
    matches s r i j -> matches s (Star r) j k -> matches s (Star r) i k
| M_Bol : matches s Bol 0 0
| M_Eol : matches s Eol (length s) (length s)
| M_Capture r i j : matches s r i j -> matches s (Capture r) i j.

(** ** The two shapes of a URL

    The strings the two patterns of [URL] spell out.  The root-relative
    shape: [/] followed by one or more characters that are not white space.
    The absolute shape: the scheme [http] or [https], [://], a character
    that is neither white space nor one of [/ $ . ? #], a character that is
    not a line terminator, and then characters that are not white space, up
    to the end. *)

Definition is_nonspace (c : N) : Prop := in_ranges whitespace c = false.

Definition relative_shape (s : jsstring) : Prop :=
  ∃ t, s = code "/" :: t ∧ t ≠ [] ∧ Forall is_nonspace t.

Definition absolute_shape (s : jsstring) : Prop :=
  ∃ (scheme : jsstring) (c d : N) (t : jsstring),
    (scheme = str "http" ∨ scheme = str "https")
    ∧ s = scheme ++ str "://" ++ c :: d :: t
    ∧ in_ranges url_excluded c = false
    ∧ in_ranges line_terminators d = false
    ∧ Forall is_nonspace t.

(** ** What one field contributes

    The effect of [check_field] on the store, as three functions of the
    field, its descriptor and the record's value: the object [err] when the
    callback ends, the entries pushed, and the calls made. *)

(** One step of the loop over the validators, on [err]. *)
Definition caught (k : string) (input : value) (err : entry) (v : validator)
  : entry :=
  match v input with
  | Normal _ => err
  | Throw e => <[k := message e]> err
  end.

Definition err_after (k : string) (f : Field.t) (input : value) : entry :=
  if negb (ToBoolean input) && Field.required f
  then {[ k := str "missing" ]}
  else fold_left (caught k input) (Field.validators f) ∅.

Definition pushed (k : string) (f : Field.t) (input : value) : list entry :=
  if truthy (err_after k f input !! k) then [err_after k f input] else [].

Definition calls (k : string) (f : Field.t) (input : value) : list event :=
  if negb (ToBoolean input) && Field.required f
  then []
  else map (fun v => EvCall k v input) (Field.validators f).

(** The same for a whole table: every key of the table is looked up in
    it, as [errors] does. *)
Definition with_field {A} (fields : fields_table) (provided : record)
    (g : string -> Field.t -> value -> list A) (k : string) : list A :=
  match get_field fields k with
  | Some f => g k f (get provided k)
  | None => []
  end.

Definition all_pushed (fields : fields_table) (provided : record) : list entry :=
  flat_map (with_field fields provided pushed) (Object_keys fields).

Definition all_calls (fields : fields_table) (provided : record) : list event :=
  flat_map (with_field fields provided calls) (Object_keys fields).

(** ** The kind a field ends with *)

(** The messages of the validators that throw on [input], in declared
    order. *)
Definition failures (vs : list validator) (input : value) : list jsstring :=
  omap (fun v : validator =>
          match v input with
          | Normal _ => None
          | Throw e => Some (message e)
          end) vs.

(** The value of [err[k]] when the callback reaches [if (err[k])]. *)
Definition kind_of (f : Field.t) (input : value) : option jsstring :=
  if negb (ToBoolean input) && Field.required f
  then Some (str "missing")
  else last (failures (Field.validators f) input).

(** ** Entries and calls of one field *)

(** The entries of a list that are about field [k]. *)
Definition about (k : string) (e : entry) : Prop := is_Some (e !! k).

#[global] Instance about_dec k e : Decision (about k e) :=
  is_Some_dec (e !! k).

Definition entries_for (k : string) (l : list entry) : list entry :=
  filter (about k) l.

Definition event_key (ev : event) : option string :=
  match ev with
  | EvErrors => None
  | EvCall k _ _ => Some k
  end.

(** The validator calls of a trace that were made for field [k]. *)
Definition made_for (k : string) (ev : event) : Prop := event_key ev = Some k.

#[global] Instance made_for_dec k ev : Decision (made_for k ev) :=
  decide (event_key ev = Some k).

Definition calls_for (k : string) (tr : list event) : list event :=
  filter (made_for k) tr.

(** A failure recorded for a field: the field is required and its value
    falsy (kind [missing]), or one of its validators threw on the value
    (the kind is the message of what it threw). *)
Definition recorded_failure (f : Field.t) (input : value) (kind : jsstring)
  : Prop :=
  (ToBoolean input = false ∧ Field.required f = true ∧ kind = str "missing")
  ∨ (∃ (v : validator) (e : Error),
        v ∈ Field.validators f ∧ v input = Throw e ∧ message e = kind).

(** A host for running examples: the [Date.parse] of the two well-formed
    dates of the file's own tests, [NaN] elsewhere, and the messages of
    V8. *)
Definition sample_host : host :=
  {| Date_parse := fun s =>
       if bool_decide (s = str "2010-09-10") then Some 1284076800000%Z
       else if bool_decide (s = str "2010-09-10T21:00:00") then Some 1284152400000%Z
       else None;
     DateFromLocalTime := fun _ => 10%Z;
     cannot_read_property := fun p v =>
       (str "Cannot read property '" ++ str p ++ str "' of " ++ ToString v)%list |}.

(** What links an entry of the result to the field it is about. *)
Definition entry_of_field (fields : fields_table) (provided : record)
    (e : entry) (k : string) : Prop :=
  ∃ (f : Field.t) (kind : jsstring),
    get_field fields k = Some f ∧ e = {[ k := kind ]} ∧ kind ≠ []
    ∧ recorded_failure f (get provided k) kind.

(** ** Patterns and the case of letters *)

(** ASCII lowercasing of a code unit, and of a string. *)
Definition lower (c : N) : N :=
  if (65 <=? c)%N && (c <=? 90)%N then (c + 32)%N else c.

Definition lowercase (s : jsstring) : jsstring := lower <$> s.

(** A pattern is stable under a map of code units when every code unit it
    can consume is mapped to one it consumes in the same place. *)
Fixpoint stable (g : N -> N) (r : regex) : Prop :=
  match r with
  | Empty | Bol | Eol => True
  | Chr c => g c = c
  | Class negated ranges =>
      forall c, class_mem negated ranges c = true ->
                class_mem negated ranges (g c) = true
  | Seq r1 r2 | Alt r1 r2 => stable g r1 ∧ stable g r2
  | Star r | Capture r => stable g r
  end.

(** ** The declared models on concrete records *)

(** A string the host reads as a date: [getDate] of the parsed date is a
    number. *)
Definition parses (h : host) (s : jsstring) : bool :=
  negb (isNaN (getDate h (new_Date (Date_parse h s)))).

(** The validators the constructors of the file make. *)
Inductive made_by_file (h : host) : validator -> Prop :=
| made_RegEx re : made_by_file h (RegEx re)
| made_ISODate : made_by_file h (ISODate h)
| made_Email : made_by_file h Email
| made_MaxLength len : made_by_file h (MaxLength h len)
| made_URL : made_by_file h URL.

(** The kinds of the documented taxonomy. *)
Definition taxonomy : list jsstring :=
  [str "missing"; str "regexp"; str "isodate"; str "length"].

(** ** Notions for the further properties *)

(** A pattern without the assertions [^] and [$]. *)
Fixpoint anchor_free (r : regex) : bool :=
  match r with
  | Bol | Eol => false
  | Seq r1 r2 | Alt r1 r2 => anchor_free r1 && anchor_free r2
  | Star r | Capture r => anchor_free r
  | Empty | Chr _ | Class _ _ => true
  end.

(** A code unit that is a decimal digit or the minus sign. *)
Definition digit_or_minus (c : N) : Prop := c = code "-" ∨ (48 <= c <= 57)%N.


(** * Properties *)

(** ** The matcher *)

Lemma in_at_char p s i j :
  In j (at_char p s i) <-> exists c, s !! i = Some c ∧ p c = true ∧ j = S i.
Proof.
  unfold at_char. destruct (s !! i) as [c|]; [destruct (p c) eqn:Hp|]; simpl.
  - split; [intros [<-|[]]; eauto | intros (? & _ & _ & ->); by left].
  - split; [done | intros (c' & [= <-] & ? & _); congruence].
  - split; [done | by intros (? & ? & _)].
Qed.

(** *** Adequacy: [ends] lists the matches of the pattern *)

Section Matcher.

Variable s : jsstring.

Lemma matches_bounds r i j :
  matches s r i j -> i ≤ j ∧ (i < j -> j ≤ length s).
Proof.
  induction 1 as [i|c i Hc|negated ranges c i Hc _|r1 r2 i j k _ [] _ []
                 |r1 r2 i j _ []|r1 r2 i j _ []|r i|r i j k _ [] _ []
                 | | |r i j _ []];
    try apply lookup_lt_Some in Hc; split; lia.
Qed.

Lemma star_ends_fuel (body : nat -> list nat) n n' :
  n ≤ n' ->
  forall i k, In k (star_ends body n i) -> In k (star_ends body n' i).
Proof.
  revert n'. induction n as [|n IH]; intros n' Hn i k.
  - simpl. intros [->|[]]. destruct n'; by left.
  - destruct n' as [|n']; [lia|]. simpl.
    intros [->|Hin]; [by left | right].
    apply in_flat_map in Hin as (j & Hj & Hk). apply in_flat_map.
    exists j. split; [done|].
    destruct (i <? j); [|done]. apply (IH n'); [lia | done].
Qed.

Lemma star_ends_sound r (body : nat -> list nat) :
  (forall i j, In j (body i) -> matches s r i j) ->
  forall fuel i k, In k (star_ends body fuel i) -> matches s (Star r) i k.
Proof.
  intros Hbody. induction fuel as [|n IH]; intros i k; simpl.
  - intros [->|[]]. constructor.
  - intros [->|Hin]; [constructor|].
    apply in_flat_map in Hin as (j & Hj & Hk).
    destruct (i <? j); [|done].
    eapply M_Star_step; [by apply Hbody | by apply IH].
Qed.

Lemma ends_sound r i j : In j (ends r s i) -> matches s r i j.
Proof.
  revert i j.
  induction r as [|c|negated ranges|r1 IH1 r2 IH2|r1 IH1 r2 IH2|r IH| | |r IH];
    simpl; intros i j.
  - intros [->|[]]. constructor.
  - intros (c' & Hc & ->%N.eqb_eq & ->)%in_at_char. by constructor.
  - intros (c' & Hc & Hm & ->)%in_at_char. by econstructor.
  - intros (m & Hm & Hj)%in_flat_map. econstructor; eauto.
  - rewrite in_app_iff. intros [?|?]; [apply M_Alt_l | apply M_Alt_r]; auto.
  - by apply star_ends_sound.
  - destruct (i =? 0) eqn:Hi; [|done].
    apply Nat.eqb_eq in Hi as ->. intros [<-|[]]. constructor.
  - destruct (i =? length s) eqn:Hi; [|done].
    apply Nat.eqb_eq in Hi as ->. intros [<-|[]]. constructor.
  - intros ?. constructor. auto.
Qed.

Lemma ends_complete r i j : matches s r i j -> In j (ends r s i).
Proof.
  induction 1 as [i|c i Hc|negated ranges c i Hc Hm|r1 r2 i j k _ IH1 _ IH2
                 |r1 r2 i j _ IH|r1 r2 i j _ IH|r i|r i j k Hr IH1 Hs IH2
                 | | |r i j _ IH]; simpl.
  - by left.
  - apply in_at_char. exists c. by rewrite N.eqb_refl.
  - apply in_at_char. eauto.
  - apply in_flat_map. eauto.
  - apply in_app_iff. by left.
  - apply in_app_iff. by right.
  - destruct (length s - i); by left.
  - simpl in IH2. destruct (matches_bounds _ _ _ Hr) as [Hle Hlen].
    destruct (decide (i = j)) as [->|Hne]; [done|].
    assert (Hlt : i < j) by lia. specialize (Hlen Hlt).
    destruct (length s - i) as [|n] eqn:Hfuel; [lia|]. simpl. right.
    apply in_flat_map. exists j. split; [done|].
    apply Nat.ltb_lt in Hlt as ->.
    apply (star_ends_fuel _ (length s - j)); [lia | done].
  - by left.
  - rewrite Nat.eqb_refl. by left.
  - done.
Qed.

(** The matcher computes the meaning of the pattern. *)
Lemma ends_matches r i j : In j (ends r s i) <-> matches s r i j.
Proof. split; [apply ends_sound | apply ends_complete]. Qed.

Lemma test_matches r :
  test r s = true <-> exists i j, i ≤ length s ∧ matches s r i j.
Proof.
  unfold test. rewrite existsb_exists. split.
  - intros (i & Hi%in_seq & Hm). unfold matches_at in Hm.
    destruct (ends r s i) as [|j js] eqn:He; [done|].
    exists i, j. split; [lia|]. apply ends_sound. rewrite He. by left.
  - intros (i & j & Hi & Hm%ends_complete). exists i. split.
    + apply in_seq. lia.
    + unfold matches_at. by destruct (ends r s i).
Qed.

End Matcher.

(** *** The patterns of [URL] and the two shapes *)

Section Shapes.

Variable s : jsstring.

Lemma star_class_inv negated ranges i j :
  matches s (Star (Class negated ranges)) i j ->
  i ≤ j ∧ forall p, i ≤ p < j ->
            exists c, s !! p = Some c ∧ class_mem negated ranges c = true.
Proof.
  remember (Star (Class negated ranges)) as r eqn:Hr.
  induction 1 as [| | | | | |r i|r i j k Hbody _ _ IH| | |]; try discriminate.
  - split; [lia|]. intros p ?. lia.
  - injection Hr as ->. destruct (IH eq_refl) as [Hle Hall].
    inversion Hbody as [| |? ? c ? Hc Hm| | | | | | | |]; subst.
    split; [lia|]. intros p Hp.
    destruct (decide (p = i)) as [->|Hne]; [eauto|]. apply Hall. lia.
Qed.

Lemma star_class_intro negated ranges n i :
  (forall p, i ≤ p < i + n ->
             exists c, s !! p = Some c ∧ class_mem negated ranges c = true) ->
  matches s (Star (Class negated ranges)) i (i + n).
Proof.
  revert i. induction n as [|n IH]; intros i Hall.
  - rewrite Nat.add_0_r. constructor.
  - destruct (Hall i) as (c & Hc & Hm); [lia|].
    eapply M_Star_step; [by econstructor|].
    replace (i + S n) with (S i + n) by lia. apply IH.
    intros p Hp. apply Hall. lia.
Qed.

End Shapes.

Ltac invert_matches :=
  repeat match goal with
    | H : matches _ (Seq _ _) _ _ |- _ => inversion H; clear H; subst
    | H : matches _ (Alt _ _) _ _ |- _ => inversion H; clear H; subst
    | H : matches _ (Capture _) _ _ |- _ => inversion H; clear H; subst
    | H : matches _ (Chr _) _ _ |- _ => inversion H; clear H; subst
    | H : matches _ (Class _ _) _ _ |- _ => inversion H; clear H; subst
    | H : matches _ Empty _ _ |- _ => inversion H; clear H; subst
    | H : matches _ Bol _ _ |- _ => inversion H; clear H; subst
    | H : matches _ Eol _ _ |- _ => inversion H; clear H; subst
    end.

Lemma nonspace_mem c : class_mem true whitespace c = true <-> is_nonspace c.
Proof.
  unfold class_mem, is_nonspace.
  destruct (in_ranges whitespace c); cbn [xorb negb]; split; congruence.
Qed.

Lemma Forall_from_lookup (P : N -> Prop) (pre t : jsstring) :
  (forall p, length pre ≤ p < length (pre ++ t) ->
             exists c, (pre ++ t) !! p = Some c ∧ P c) ->
  Forall P t.
Proof.
  intros Hall. apply Forall_lookup. intros i x Hx.
  destruct (Hall (length pre + i)) as (c & Hc & HP).
  - apply lookup_lt_Some in Hx. rewrite length_app. lia.
  - rewrite lookup_app_r in Hc by lia.
    replace (length pre + i - length pre) with i in Hc by lia. congruence.
Qed.

Section URL_shapes.

#[local] Arguments class_mem : simpl never.
#[local] Arguments in_ranges : simpl never.

Lemma local_url_shape s : test local_url s = true <-> relative_shape s.
Proof.
  rewrite test_matches. split.
  - intros (i & j & _ & Hm). unfold local_url, Plus, nonspace in Hm.
    invert_matches.
    match goal with H : matches _ (Star _) _ _ |- _ =>
      apply star_class_inv in H as [Hle Hall] end.
    destruct s as [|c0 [|c1 t]]; simplify_eq/=.
    eexists. repeat split; [done|].
    apply (Forall_from_lookup _ [code "/"]). intros p Hp. simpl in Hp.
    destruct (decide (p = 1)) as [->|Hne].
    + eexists. split; [done|]. by apply nonspace_mem.
    + destruct (Hall p) as (c' & Hc & Hmem); [simpl; lia|].
      exists c'. split; [done|]. by apply nonspace_mem.
  - intros (t & -> & Hne & Hall). destruct t as [|c1 t]; [done|].
    apply Forall_cons in Hall as [H1 Hall].
    exists 0, (length (code "/" :: c1 :: t)). split; [lia|].
    unfold local_url, Plus, nonspace.
    eapply M_Seq; [|constructor].
    eapply M_Seq; [eapply M_Seq; [constructor | by constructor]|].
    eapply M_Seq; [econstructor; [done | by apply nonspace_mem]|].
    change (length (code "/" :: c1 :: t)) with (2 + length t).
    apply star_class_intro. intros p Hp.
    destruct (lookup_lt_is_Some_2 t (p - 2)) as [c Hc]; [lia|].
    exists c. split.
    + replace p with (S (S (p - 2))) by lia. done.
    + apply nonspace_mem. eapply Forall_lookup_1; done.
Qed.

Lemma negated_mem ranges c :
  class_mem true ranges c = true <-> in_ranges ranges c = false.
Proof.
  unfold class_mem. destruct (in_ranges ranges c); cbn [xorb negb];
    split; congruence.
Qed.

Lemma star_nonspace_tail (pre t : jsstring) :
  Forall is_nonspace t ->
  matches (pre ++ t) (Star (Class true whitespace))
          (length pre) (length pre + length t).
Proof.
  intros Ht. apply star_class_intro. intros p Hp.
  destruct (lookup_lt_is_Some_2 t (p - length pre)) as [c Hc]; [lia|].
  exists c. split.
  - by rewrite lookup_app_r by lia.
  - apply nonspace_mem. eapply Forall_lookup_1; done.
Qed.

(** Building the match of a sequence from left to right. *)
Ltac build_match :=
  lazymatch goal with
  | |- matches _ (Seq _ _) _ _ => eapply M_Seq; [build_match | build_match]
  | |- matches _ (Capture _) _ _ => apply M_Capture; build_match
  | |- matches _ (Alt _ _) _ _ =>
      first [ apply M_Alt_l; build_match | apply M_Alt_r; build_match ]
  | |- matches _ (Chr _) _ _ => apply M_Chr; reflexivity
  | |- matches _ (Class true _) _ _ =>
      eapply M_Class; [reflexivity | apply negated_mem; assumption]
  | |- matches _ Bol _ _ => apply M_Bol
  | |- matches _ Empty _ _ => apply M_Empty
  | |- matches _ Eol _ _ => apply M_Eol
  | |- matches _ (Star _) _ _ => idtac
  end.

Lemma fq_url_shape s : test fq_url s = true <-> absolute_shape s.
Proof.
  rewrite test_matches. split.
  - intros (i & j & _ & Hm). unfold fq_url, Opt, Dot, nonspace in Hm.
    invert_matches;
    match goal with H : matches _ (Star _) _ _ |- _ =>
      apply star_class_inv in H as [Hle Hall] end.
    + do 10 (destruct s as [|? s]; simplify_eq/=).
      exists (str "https"). do 3 eexists.
      split; [by right|]. split; [reflexivity|].
      repeat split; try by apply negated_mem.
      eapply (Forall_from_lookup _ (str "https://" ++ [_; _])).
      intros p Hp. destruct (Hall p) as (c' & Hc' & Hmem); [simpl in *; lia|].
      exists c'. split; [exact Hc'|]. by apply nonspace_mem.
    + do 9 (destruct s as [|? s]; simplify_eq/=).
      exists (str "http"). do 3 eexists.
      split; [by left|]. split; [reflexivity|].
      repeat split; try by apply negated_mem.
      eapply (Forall_from_lookup _ (str "http://" ++ [_; _])).
      intros p Hp. destruct (Hall p) as (c' & Hc' & Hmem); [simpl in *; lia|].
      exists c'. split; [exact Hc'|]. by apply nonspace_mem.
  - intros (scheme & c & d & t & Hscheme & -> & Hc & Hd & Ht).
    unfold fq_url, Opt, Dot, nonspace.
    destruct Hscheme as [-> | ->].
    + exists 0, (length (str "http://" ++ [c; d] ++ t)). split; [lia|].
      build_match.
      exact (star_nonspace_tail (str "http://" ++ [c; d]) t Ht).
    + exists 0, (length (str "https://" ++ [c; d] ++ t)). split; [lia|].
      build_match.
      exact (star_nonspace_tail (str "https://" ++ [c; d]) t Ht).
Qed.

End URL_shapes.

(** *** Patterns under a map of code units *)

Lemma at_char_fmap (g : N -> N) p p' s i j :
  (forall c, p c = true -> p' (g c) = true) ->
  In j (at_char p s i) -> In j (at_char p' (g <$> s) i).
Proof.
  intros Hp (c & Hc & Hpc & ->)%in_at_char. apply in_at_char.
  exists (g c). rewrite list_lookup_fmap, Hc. auto.
Qed.

Lemma star_ends_mono (body body' : nat -> list nat) fuel :
  (forall i j, In j (body i) -> In j (body' i)) ->
  forall i j, In j (star_ends body fuel i) -> In j (star_ends body' fuel i).
Proof.
  intros Hbody. induction fuel as [|n IH]; intros i j; simpl; [done|].
  intros [->|Hin]; [by left | right].
  apply in_flat_map in Hin as (m & Hm & Hj). apply in_flat_map.
  exists m. split; [by apply Hbody|].
  destruct (i <? m)%nat; [by apply IH | done].
Qed.

Lemma ends_fmap (g : N -> N) r s :
  stable g r -> forall i j, In j (ends r s i) -> In j (ends r (g <$> s) i).
Proof.
  induction r as [|c|negated ranges|r1 IH1 r2 IH2|r1 IH1 r2 IH2|r IH| | |r IH];
    simpl; intros Hst i j; try done.
  - apply at_char_fmap. intros c' ->%N.eqb_eq. rewrite Hst. apply N.eqb_refl.
  - by apply at_char_fmap.
  - destruct Hst as [H1 H2]. intros (m & Hm & Hj)%in_flat_map.
    apply in_flat_map. exists m. split; [by apply IH1 | by apply IH2].
  - destruct Hst as [H1 H2]. rewrite !in_app_iff.
    intros [?|?]; [left; by apply IH1 | right; by apply IH2].
  - rewrite length_fmap. apply star_ends_mono. by apply IH.
  - by rewrite length_fmap.
  - by apply IH.
Qed.

Lemma test_fmap (g : N -> N) r s :
  stable g r -> test r s = true -> test r (g <$> s) = true.
Proof.
  intros Hst. unfold test. rewrite !existsb_exists, length_fmap.
  intros (i & Hi & Hm). exists i. split; [done|].
  unfold matches_at in *. destruct (ends r s i) as [|j js] eqn:He; [done|].
  assert (Hj : In j (ends r (g <$> s) i))
    by (apply ends_fmap; [done | rewrite He; by left]).
  by destruct (ends r (g <$> s) i).
Qed.

Lemma class_lower ranges :
  (forall c, in_ranges ranges c = true -> ¬ (65 <= c <= 90)%N) ->
  forall c, class_mem false ranges c = true ->
            class_mem false ranges (lower c) = true.
Proof.
  intros Hno c Hc. unfold class_mem in *. simpl in *.
  specialize (Hno c Hc). unfold lower.
  destruct (65 <=? c)%N eqn:H1, (c <=? 90)%N eqn:H2; simpl; try done.
  apply N.leb_le in H1, H2. lia.
Qed.

Lemma in_ranges_cons lo hi ranges c :
  in_ranges ((lo, hi) :: ranges) c = true
  <-> (lo <= c <= hi)%N ∨ in_ranges ranges c = true.
Proof.
  unfold in_ranges. simpl. rewrite orb_true_iff, andb_true_iff, !N.leb_le. tauto.
Qed.

(** A class without uppercase letters is stable under lowercasing. *)
Ltac lowercase_class :=
  cbn [stable]; apply class_lower; intros c; unfold one, rng, code;
  repeat (rewrite in_ranges_cons; simpl N_of_ascii);
  unfold in_ranges; simpl;
  intros H; repeat destruct H as [H|H]; try lia; done.

Lemma email_regex_stable : stable lower email_regex.
Proof.
  assert (Hatext : stable lower atext) by (unfold atext; lowercase_class).
  assert (Halnum : stable lower alnum) by (unfold alnum; lowercase_class).
  assert (Hhyphen : stable lower alnum_hyphen)
    by (unfold alnum_hyphen; lowercase_class).
  assert (Hlabel : stable lower label).
  { unfold label, Opt. cbn [stable]. tauto. }
  assert (Hdot : lower (code ".") = code ".") by reflexivity.
  assert (Hat : lower (code "@") = code "@") by reflexivity.
  unfold email_regex, Plus. cbn [stable]. tauto.
Qed.

Lemma RegEx_accepts re input :
  RegEx re input = Normal tt <-> test re (ToString input) = true.
Proof. unfold RegEx. by destruct (test re (ToString input)). Qed.

(** ** Values *)

(** The falsy values: [undefined], [null], [false], [0] and the empty
    string. *)
Lemma ToBoolean_false (v : value) :
  ToBoolean v = false
  <-> v = VUndefined ∨ v = VNull ∨ v = VBool false ∨ v = VNum 0 ∨ v = VStr [].
Proof.
  split.
  - destruct v as [| |[]|[| |]|[|]]; simpl; intros; try done; auto 6.
  - intros [->|[->|[->|[->| ->]]]]; reflexivity.
Qed.

(** An absent property reads as [undefined], which is falsy. *)
Lemma get_absent (provided : record) k :
  provided !! k = None -> get provided k = VUndefined.
Proof. unfold get. by intros ->. Qed.

(** ** The run of [errors] *)

Section Run.

Variable h : host.

Lemma bind_run {A B} (m : M A) (f : A -> M B) s :
  (m ≫= f) s = match m s with
               | (Normal a, s') => f a s'
               | (Throw e, s') => (Throw e, s')
               end.
Proof. reflexivity. Qed.

Lemma forEach_validators k input vs s :
  forEach vs (fun validator =>
      try_catchM (call k validator input) (fun e => assign_err k (message e))) s
  = (Normal tt,
     mkStore (errors_var s) (fold_left (caught k input) vs (err_var s))
             (trace s ++ map (fun v => EvCall k v input) vs)).
Proof.
  revert s. induction vs as [|v vs IH]; intros s; simpl.
  - rewrite app_nil_r. by destruct s.
  - rewrite bind_run. unfold try_catchM, call, caught at 2.
    destruct (v input) as [[]|e]; simpl; rewrite IH; simpl;
      by rewrite <- app_assoc.
Qed.

Lemma get_field_keys fields k :
  k ∈ Object_keys fields -> is_Some (get_field fields k).
Proof.
  unfold Object_keys. induction fields as [|[k' f] rest IH]; simpl.
  - by intros ?%elem_of_nil.
  - intros [->|Hin]%elem_of_cons; case_decide; eauto; congruence.
Qed.

Lemma check_field_run fields provided k f s :
  get_field fields k = Some f ->
  check_field h fields provided k s
  = (Normal tt,
     mkStore (errors_var s ++ pushed k f (get provided k))
             (err_after k f (get provided k))
             (trace s ++ calls k f (get provided k))).
Proof.
  intros Hf. unfold check_field, missing, field_of, pushed, calls, err_after.
  rewrite Hf. unfold mbind, M_bind, bind, new_err, ret, read_err, push_err. simpl.
  destruct (ToBoolean (get provided k)); simpl.
  - rewrite forEach_validators. simpl.
    destruct (truthy _); simpl; rewrite ?app_nil_r; reflexivity.
  - destruct (Field.required f); simpl.
    + unfold assign_err; simpl.
      rewrite insert_empty, lookup_singleton_eq, app_nil_r.
      change (truthy (Some (str "missing"))) with true. reflexivity.
    + rewrite forEach_validators. simpl.
      destruct (truthy _); simpl; rewrite ?app_nil_r; reflexivity.
Qed.

Lemma forEach_check_field fields provided ks s :
  (forall k, k ∈ ks -> is_Some (get_field fields k)) ->
  exists err,
    forEach ks (check_field h fields provided) s
    = (Normal tt,
       mkStore (errors_var s ++ flat_map (with_field fields provided pushed) ks)
               err
               (trace s ++ flat_map (with_field fields provided calls) ks)).
Proof.
  revert s. induction ks as [|k ks IH]; intros s Hks; simpl.
  - exists (err_var s). rewrite !app_nil_r. by destruct s.
  - destruct (Hks k) as [f Hf]; [by left|].
    rewrite bind_run, (check_field_run _ _ _ f) by done.
    destruct (IH (mkStore (errors_var s ++ pushed k f (get provided k))
                          (err_after k f (get provided k))
                          (trace s ++ calls k f (get provided k)))) as [err ->].
    { intros k' Hk'. apply Hks. by right. }
    exists err.
    assert (Hg : forall A (g : string -> Field.t -> value -> list A),
               with_field fields provided g k = g k f (get provided k))
      by (intros; unfold with_field; by rewrite Hf).
    rewrite !Hg. simpl. by rewrite <- !app_assoc.
Qed.

(** [errors] returns normally, whatever the table, the record and the
    store it starts from; its result and its trace are those of the
    fields, in the order of [Object.keys]. *)
Lemma errors_run this s :
  exists err,
    errors h this s
    = (Normal (all_pushed (Model.fields this) (Model.data this)),
       mkStore (all_pushed (Model.fields this) (Model.data this)) err
               (trace s ++ EvErrors
                  :: all_calls (Model.fields this) (Model.data this))).
Proof.
  unfold errors. rewrite bind_run. unfold emit. rewrite bind_run. unfold new_errors.
  rewrite bind_run. cbn [errors_var err_var trace].
  destruct (forEach_check_field (Model.fields this) (Model.data this)
              (Object_keys (Model.fields this))
              (mkStore [] (err_var s) (trace s ++ [EvErrors]))) as [err ->].
  { apply get_field_keys. }
  exists err. unfold read_errors, all_pushed, all_calls. simpl.
  by rewrite <- app_assoc.
Qed.

End Run.

Lemma fold_caught k input vs err :
  fold_left (caught k input) vs err
  = match last (failures vs input) with
    | Some kind => <[k := kind]> err
    | None => err
    end.
Proof.
  induction vs as [|v vs IH] using rev_ind; [done|].
  rewrite fold_left_app. simpl. unfold failures in *. rewrite omap_app. simpl.
  unfold caught at 1. destruct (v input) as [[]|e]; simpl.
  - by rewrite app_nil_r.
  - rewrite last_snoc, IH. destruct (last _); [apply insert_insert_eq | done].
Qed.

Lemma err_after_kind k f input :
  err_after k f input
  = match kind_of f input with
    | Some kind => {[ k := kind ]}
    | None => ∅
    end.
Proof.
  unfold err_after, kind_of. destruct (negb _ && _); [done|].
  rewrite fold_caught. destruct (last _); [apply insert_empty | done].
Qed.

Lemma pushed_kind k f input :
  pushed k f input
  = match kind_of f input with
    | Some (c :: kind) => [ {[ k := c :: kind ]} ]
    | _ => []
    end.
Proof.
  unfold pushed. rewrite err_after_kind.
  destruct (kind_of f input) as [[|c kind]|]; simpl;
    rewrite ?lookup_singleton_eq, ?lookup_empty; done.
Qed.

Lemma filter_all {A} (P : A -> Prop) `{!forall x, Decision (P x)} (l : list A) :
  (forall x, x ∈ l -> P x) -> filter P l = l.
Proof.
  induction l as [|x l IH]; intros Hl; [done|].
  rewrite filter_cons_True by (apply Hl; by left).
  f_equal. apply IH. intros y Hy. apply Hl. by right.
Qed.

Lemma filter_none {A} (P : A -> Prop) `{!forall x, Decision (P x)} (l : list A) :
  (forall x, x ∈ l -> ¬ P x) -> filter P l = [].
Proof.
  induction l as [|x l IH]; intros Hl; [done|].
  rewrite filter_cons_False by (apply Hl; by left).
  apply IH. intros y Hy. apply Hl. by right.
Qed.

(** In the concatenation of per-key lists over distinct keys, the items
    of one key are those of its own list. *)
Lemma filter_flat_map_key {A} (P : string -> A -> Prop)
    `{!forall k x, Decision (P k x)} (g : string -> list A) ks k :
  NoDup ks -> k ∈ ks ->
  (forall k' x, x ∈ g k' -> P k x <-> k' = k) ->
  filter (P k) (flat_map g ks) = g k.
Proof.
  intros Hnd Hin Hg.
  assert (Hk : filter (P k) (g k) = g k).
  { apply filter_all. intros x Hx. by apply (Hg k x). }
  assert (Hother : forall k', k' ≠ k -> filter (P k) (g k') = []).
  { intros k' Hne. apply filter_none. intros x Hx HP. by apply Hne, (Hg k' x). }
  assert (Hnot : forall l : list string, k ∉ l -> filter (P k) (flat_map g l) = []).
  { induction l as [|k' l IH]; intros Hl; simpl; [done|].
    rewrite filter_app, Hother, IH; [done| |];
      intros ?; apply Hl; subst; [by right | by left]. }
  induction ks as [|k' ks IH]; [by apply elem_of_nil in Hin|].
  apply NoDup_cons in Hnd as [Hk' Hnd]. simpl. rewrite filter_app.
  destruct (decide (k' = k)) as [->|Hne].
  - rewrite Hk, Hnot by done. apply app_nil_r.
  - rewrite Hother by done. apply IH; [done|].
    apply elem_of_cons in Hin as [?|?]; [congruence | done].
Qed.

Lemma get_field_Some_key fields k f :
  get_field fields k = Some f -> k ∈ Object_keys fields.
Proof.
  unfold Object_keys. induction fields as [|[k' f'] rest IH]; simpl; [done|].
  case_decide; [subst; left | right; auto].
Qed.

Lemma entries_for_all_pushed fields provided k f :
  NoDup (Object_keys fields) -> get_field fields k = Some f ->
  entries_for k (all_pushed fields provided) = pushed k f (get provided k).
Proof.
  intros Hnd Hf. unfold entries_for, all_pushed.
  transitivity (with_field fields provided pushed k);
    [|unfold with_field; by rewrite Hf].
  apply (filter_flat_map_key about
           (with_field fields provided pushed) (Object_keys fields) k); [done| |].
  - by eapply get_field_Some_key.
  - intros k' e. unfold with_field. destruct (get_field fields k'); [|by intros ?%elem_of_nil].
    rewrite pushed_kind. destruct (kind_of _ _) as [[|c kind]|];
      try by intros ?%elem_of_nil.
    intros ->%list_elem_of_singleton. unfold about.
    rewrite lookup_singleton_is_Some. done.
Qed.

Lemma calls_for_all_calls fields provided k f :
  NoDup (Object_keys fields) -> get_field fields k = Some f ->
  calls_for k (all_calls fields provided) = calls k f (get provided k).
Proof.
  intros Hnd Hf. unfold calls_for, all_calls.
  transitivity (with_field fields provided calls k);
    [|unfold with_field; by rewrite Hf].
  apply (filter_flat_map_key made_for
           (with_field fields provided calls) (Object_keys fields) k); [done| |].
  - by eapply get_field_Some_key.
  - intros k' ev. unfold with_field. destruct (get_field fields k'); [|by intros ?%elem_of_nil].
    unfold calls. destruct (negb _ && _); [by intros ?%elem_of_nil|].
    intros (v & -> & _)%list_elem_of_fmap. unfold made_for. simpl.
    split; congruence.
Qed.

Section Claims.

Variable h : host.

Lemma kind_of_recorded f input kind :
  kind_of f input = Some kind -> recorded_failure f input kind.
Proof.
  unfold kind_of, recorded_failure.
  destruct (ToBoolean input) eqn:Hb, (Field.required f) eqn:Hr; simpl;
    try (intros [= <-]; by left);
    intros (v & Hv & Hm)%last_Some_elem_of%list_elem_of_omap; right;
    destruct (v input) as [|e] eqn:He; try done;
    exists v, e; repeat split; congruence.
Qed.

Lemma calls_for_run fields provided k f l s' :
  NoDup (Object_keys fields) -> get_field fields k = Some f ->
  run (errors h (Model.mk fields provided)) = (Normal l, s') ->
  l = all_pushed fields provided
  ∧ calls_for k (trace s') = calls k f (get provided k).
Proof.
  intros Hnd Hf. unfold run.
  destruct (errors_run h (Model.mk fields provided) initial) as [err ->].
  intros [= <- <-]. split; [done|]. simpl.
  unfold calls_for. rewrite filter_cons_False by (by unfold made_for).
  by apply calls_for_all_calls.
Qed.

Lemma run_errors_normal fields provided :
  exists l s', run (errors h (Model.mk fields provided)) = (Normal l, s').
Proof.
  unfold run.
  destruct (errors_run h (Model.mk fields provided) initial) as [err ->]. eauto.
Qed.

(** C1. [validate] is a constant function: whatever it is given (a record,
    [null], [undefined], any raw value) and whatever the store, it returns
    [{status: "okay", error: []}] and leaves the store as it was; its run
    from the initial store has an empty trace, so neither [errors] nor any
    validator was called. *)
Theorem validate_constant (assertion : argument) (s : store) :
  validate assertion s = (Normal {| status := str "okay"; error := [] |}, s)
  ∧ trace (snd (run (validate assertion))) = [].
Proof. split; reflexivity. Qed.

(** C4. In a table of distinct ordinary names, a required field whose
    value in the record is falsy gets exactly one entry,
    [{field: "missing"}], and none of its validators is called. *)
Theorem required_falsy_missing fields provided k f :
  NoDup (Object_keys fields) ->
  ordinary_names fields ->
  get_field fields k = Some f ->
  Field.required f = true ->
  ToBoolean (get provided k) = false ->
  exists l s',
    run (errors h (Model.mk fields provided)) = (Normal l, s')
    ∧ entries_for k l = [ {[ k := str "missing" ]} ]
    ∧ calls_for k (trace s') = [].
Proof.
  intros Hnd _ Hf Hr Hb.
  destruct (run_errors_normal fields provided) as (l & s' & Hrun).
  exists l, s'. split; [done|].
  destruct (calls_for_run _ _ _ _ _ _ Hnd Hf Hrun) as [-> ->].
  rewrite (entries_for_all_pushed _ _ _ f), pushed_kind by done.
  unfold calls, kind_of. rewrite Hb, Hr. done.
Qed.

(** C5. In a table of distinct ordinary names, an optional field whose
    value in the record is falsy still has every one of its validators
    called on that value, in declared order; and when the last validator
    that fails does so with a kind, the field gets the entry of that
    kind. *)
Theorem optional_falsy_validated fields provided k f :
  NoDup (Object_keys fields) ->
  ordinary_names fields ->
  get_field fields k = Some f ->
  Field.required f = false ->
  ToBoolean (get provided k) = false ->
  exists l s',
    run (errors h (Model.mk fields provided)) = (Normal l, s')
    ∧ calls_for k (trace s')
      = map (fun v => EvCall k v (get provided k)) (Field.validators f)
    ∧ (forall kind,
          last (failures (Field.validators f) (get provided k)) = Some kind ->
          kind ≠ [] ->
          entries_for k l = [ {[ k := kind ]} ]).
Proof.
  intros Hnd _ Hf Hr Hb.
  destruct (run_errors_normal fields provided) as (l & s' & Hrun).
  exists l, s'. split; [done|].
  destruct (calls_for_run _ _ _ _ _ _ Hnd Hf Hrun) as [-> ->].
  rewrite (entries_for_all_pushed _ _ _ f), pushed_kind by done.
  unfold calls, kind_of. rewrite Hb, Hr. simpl. split; [done|].
  intros kind -> Hne. by destruct kind.
Qed.


Lemma all_pushed_shape fields provided ks0 :
  exists ks,
    ks `sublist_of` ks0
    ∧ Forall2 (entry_of_field fields provided)
              (flat_map (with_field fields provided pushed) ks0) ks.
Proof.
  induction ks0 as [|k ks0 (ks & Hsub & Hall)]; simpl.
  - exists []. split; constructor.
  - unfold with_field at 1. destruct (get_field fields k) as [f|] eqn:Hf.
    + rewrite pushed_kind.
      destruct (kind_of f (get provided k)) as [[|c kind]|] eqn:Hk; simpl.
      * exists ks. split; [by apply sublist_cons | done].
      * exists (k :: ks). split; [by apply sublist_skip|].
        constructor; [|done]. exists f, (c :: kind).
        repeat split; [done | done | by apply kind_of_recorded].
      * exists ks. split; [by apply sublist_cons | done].
    + exists ks. split; [by apply sublist_cons | done].
Qed.

Lemma entries_for_shape fields provided l ks k :
  Forall2 (entry_of_field fields provided) l ks -> NoDup ks ->
  (length (entries_for k l) ≤ 1)%nat ∧ (k ∉ ks -> entries_for k l = []).
Proof.
  unfold entries_for.
  induction 1 as [|e k' l ks (f & kind & _ & -> & _) _ IH]; intros Hnd.
  - split; [simpl; lia | done].
  - apply NoDup_cons in Hnd as [Hk' Hnd]. destruct (IH Hnd) as [IH1 IH2].
    destruct (decide (k = k')) as [->|Hne].
    + rewrite filter_cons_True by (unfold about; by rewrite lookup_singleton_eq).
      rewrite IH2 by done. split; [simpl; lia|].
      intros Hk. exfalso. apply Hk. by left.
    + rewrite filter_cons_False
        by (unfold about; rewrite lookup_singleton_ne by done; by intros []).
      split; [done|]. intros Hk. apply IH2. intros ?. apply Hk. by right.
Qed.

(** C7. For a table of distinct ordinary names, the returned list has at
    most one entry per field; every entry is the entry [{k: kind}] of a
    declared field [k] with a recorded failure of that kind; and the
    entries come in the order in which [Object.keys] enumerates the
    fields. *)
Theorem error_list_shape fields provided :
  NoDup (Object_keys fields) ->
  ordinary_names fields ->
  exists l s',
    run (errors h (Model.mk fields provided)) = (Normal l, s')
    ∧ (forall k, (length (entries_for k l) ≤ 1)%nat)
    ∧ exists ks,
        ks `sublist_of` Object_keys fields
        ∧ Forall2 (entry_of_field fields provided) l ks.
Proof.
  intros Hnd _. unfold run.
  destruct (errors_run h (Model.mk fields provided) initial) as [err ->].
  eexists _, _. split; [done|]. cbn [Model.fields Model.data].
  destruct (all_pushed_shape fields provided (Object_keys fields))
    as (ks & Hsub & Hall).
  split; [|by exists ks].
  intros k. eapply entries_for_shape; [done|]. by eapply sublist_NoDup.
Qed.

End Claims.

(** C8. [URL] tries the absolute http/https pattern first and the
    root-relative one only when the first fails; it accepts a value iff
    the string of the value matches one of the two patterns, that is, iff
    it has the absolute or the root-relative shape; when both fail the
    failure that propagates is the second one, of kind [regexp]; and it
    accepts the three sample URLs and rejects the [ftp] one. *)
Theorem URL_either_shape (input : value) :
  URL input = match RegEx fq_url input with
              | Normal _ => Normal tt
              | Throw _ => RegEx local_url input
              end
  ∧ (URL input = Normal tt
     <-> test fq_url (ToString input) = true
         ∨ test local_url (ToString input) = true)
  ∧ (URL input = Normal tt
     <-> absolute_shape (ToString input) ∨ relative_shape (ToString input))
  ∧ (test fq_url (ToString input) = false ->
     test local_url (ToString input) = false ->
     URL input = Throw (ValidationError (str "regexp")))
  ∧ URL (VStr (str "http://example.com/")) = Normal tt
  ∧ URL (VStr (str "/relative/path")) = Normal tt
  ∧ URL (VStr (str "https://example.com:443/")) = Normal tt
  ∧ URL (VStr (str "ftp://example.com/path"))
    = Throw (ValidationError (str "regexp")).
Proof.
  assert (Hiff : URL input = Normal tt
                 <-> test fq_url (ToString input) = true
                     ∨ test local_url (ToString input) = true).
  { unfold URL, RegEx, try_catch. split.
    - destruct (test fq_url (ToString input)); [by left|].
      destruct (test local_url (ToString input)); [by right | done].
    - intros [->| ->]; [done|].
      by destruct (test fq_url (ToString input)). }
  split; [|split; [done|split; [|split]]].
  - unfold URL, try_catch. by destruct (RegEx fq_url input) as [[]|].
  - by rewrite Hiff, fq_url_shape, local_url_shape.
  - unfold URL, RegEx, try_catch. by intros -> ->.
  - repeat split; vm_compute; reflexivity.
Qed.

(** C9. [Email] compares letters exactly: the pattern of line 43 spells its
    letter classes in lowercase and carries no [i] flag, although the
    comment of line 42 announces the addresses of RFC 2822, in which the
    case of the domain is irrelevant.  It accepts ["b@example.com"] and
    ["alice@example.org"] and rejects ["B@EXAMPLE.COM"] and
    ["alice@Example.org"], which differ from them by the case of letters
    only; and as the pattern is not anchored it accepts ["Bob@example.com"]
    through its part ["ob@example.com"]. *)
Theorem Email_case_sensitive :
  Email (VStr (str "b@example.com")) = Normal tt
  ∧ Email (VStr (str "B@EXAMPLE.COM")) = Throw (ValidationError (str "regexp"))
  ∧ lowercase (str "B@EXAMPLE.COM") = str "b@example.com"
  ∧ Email (VStr (str "alice@example.org")) = Normal tt
  ∧ Email (VStr (str "alice@Example.org")) = Throw (ValidationError (str "regexp"))
  ∧ lowercase (str "alice@Example.org") = str "alice@example.org"
  ∧ Email (VStr (str "Bob@example.com")) = Normal tt
  ∧ Email (VStr (str "ob@example.com")) = Normal tt
  ∧ Email (VStr (str "B@example.com")) = Throw (ValidationError (str "regexp")).
Proof. repeat split; vm_compute; reflexivity. Qed.

(** Hence acceptance is not invariant under a change of case. *)
Lemma Email_not_case_insensitive :
  ¬ (forall s s' : jsstring,
        lowercase s = lowercase s' ->
        (Email (VStr s) = Normal tt <-> Email (VStr s') = Normal tt)).
Proof.
  intros Hall.
  destruct (Hall (str "b@example.com") (str "B@EXAMPLE.COM")) as [Hup _].
  - vm_compute. reflexivity.
  - assert (Hacc : Email (VStr (str "b@example.com")) = Normal tt)
      by (vm_compute; reflexivity).
    specialize (Hup Hacc). vm_compute in Hup. discriminate Hup.
Qed.

(** The one direction that the pattern does give: lowercasing the letters
    of an accepted string keeps it accepted. *)
Lemma Email_lowercase_accepted (s : jsstring) :
  Email (VStr s) = Normal tt ->
  Email (VStr (lowercase s)) = Normal tt
  ∧ Email (VStr (str "b@example.com")) = Normal tt
  ∧ Email (VStr (str "B@EXAMPLE.COM")) = Throw (ValidationError (str "regexp")).
Proof.
  intros Hs. split; [|split; vm_compute; reflexivity].
  unfold Email in *. apply RegEx_accepts. apply RegEx_accepts in Hs. simpl in *.
  apply test_fmap; [apply email_regex_stable | done].
Qed.

Lemma get_field_elem fields k f : get_field fields k = Some f -> (k, f) ∈ fields.
Proof.
  induction fields as [|[k' f'] rest IH]; simpl; [done|].
  case_decide; [intros [= ->]; subst; by left | right; auto].
Qed.

Section Declared.

Variable h : host.



Lemma ISODate_parses input :
  ISODate h input
  = if parses h (ToString input) then Normal tt
    else Throw (ValidationError (str "isodate")).
Proof. unfold ISODate, parses. by destruct (isNaN _). Qed.

Lemma errors_result this :
  fst (run (errors h this))
  = Normal (all_pushed (Model.fields this) (Model.data this)).
Proof.
  unfold run. by destruct (errors_run h this initial) as [err ->].
Qed.

Lemma get_field_NoDup fields k f :
  NoDup (Object_keys fields) -> (k, f) ∈ fields -> get_field fields k = Some f.
Proof.
  unfold Object_keys. induction fields as [|[k' f'] rest IH]; simpl.
  - by intros _ ?%elem_of_nil.
  - intros [Hk' Hnd]%NoDup_cons [[= -> ->]|Hin]%elem_of_cons.
    + by rewrite decide_True.
    + rewrite decide_False; [by apply IH|].
      intros ->. apply Hk'. apply list_elem_of_fmap. by exists (k, f).
Qed.

(** In a table of distinct keys every key finds its own descriptor. *)
Lemma all_pushed_NoDup fields provided :
  NoDup (Object_keys fields) ->
  all_pushed fields provided
  = flat_map (fun kf => pushed kf.1 kf.2 (get provided kf.1)) fields.
Proof.
  intros Hnd. unfold all_pushed, Object_keys.
  assert (Hall : forall l : fields_table,
             (forall kf, kf ∈ l -> get_field fields kf.1 = Some kf.2) ->
             flat_map (with_field fields provided pushed) l.*1
             = flat_map (fun kf => pushed kf.1 kf.2 (get provided kf.1)) l).
  { induction l as [|kf l IH]; intros Hl; [done|]. simpl.
    unfold with_field at 1. rewrite (Hl kf) by (by left). f_equal.
    apply IH. intros kf' Hin. apply Hl. by right. }
  apply Hall. intros [k f] Hin. by apply get_field_NoDup.
Qed.

Lemma pushed_optional_ISODate k input :
  pushed k (optional [ISODate h]) input
  = if parses h (ToString input) then [] else [ {[ k := str "isodate" ]} ].
Proof.
  rewrite pushed_kind. unfold kind_of, optional, field, failures.
  cbn [Field.required Field.validators]. rewrite andb_false_r.
  cbn [omap list_omap]. rewrite ISODate_parses.
  by destruct (parses h (ToString input)).
Qed.

Lemma pushed_optional_MaxLength_nullish k len input :
  input = VUndefined ∨ input = VNull ->
  pushed k (optional [MaxLength h len]) input
  = if truthy (Some (cannot_read_property h "length" input))
    then [ {[ k := cannot_read_property h "length" input ]} ]
    else [].
Proof.
  intros Hin. rewrite pushed_kind. unfold kind_of, optional, field, failures.
  cbn [Field.required Field.validators]. rewrite andb_false_r.
  destruct Hin as [-> | ->]; cbn;
    by destruct (cannot_read_property h "length" _).
Qed.

(** Evaluation of the closed parts of a goal. *)
Ltac closed := vm_compute; reflexivity.

(** The entries of a declared model, field by field. *)
Ltac per_field :=
  cbn [prototype_fields set_prototype_fields Model.fields Model.data default
       from_option id];
  rewrite !all_pushed_NoDup by (apply (bool_decide_unpack _); closed);
  cbn [flat_map fst snd].

(** C2. On the record [{recipient: "b@example.com"}] the Assertion model
    does not return an empty list: the absent optional fields are handed to
    their validators as [undefined], so [evidence] fails [URL], and
    [expires] and [issued_at] fail [ISODate] unless the host parses the
    string ["undefined"] as a date. *)
Theorem Assertion_recipient_only :
  fst (run (errors h (new (Assertion h)
                          (Some {[ "recipient" := VStr (str "b@example.com") ]}))))
  = Normal ({[ "evidence" := str "regexp" ]}
            :: if parses h (str "undefined") then []
               else [ {[ "expires" := str "isodate" ]};
                      {[ "issued_at" := str "isodate" ]} ]).
Proof.
  rewrite errors_result. f_equal.
  unfold new, Assertion. per_field.
  set (provided := {[ "recipient" := VStr (str "b@example.com") ]} : record).
  assert (get provided "recipient" = VStr (str "b@example.com")) as -> by closed.
  assert (get provided "evidence" = VUndefined) as -> by closed.
  assert (get provided "expires" = VUndefined) as -> by closed.
  assert (get provided "issued_at" = VUndefined) as -> by closed.
  rewrite !pushed_optional_ISODate.
  assert (pushed "recipient" (required [Email]) (VStr (str "b@example.com")) = [])
    as -> by closed.
  assert (pushed "evidence" (optional [URL]) VUndefined
          = [ {[ "evidence" := str "regexp" ]} ]) as -> by closed.
  change (ToString VUndefined) with (str "undefined").
  by destruct (parses h (str "undefined")).
Qed.

Lemma pushed_required_undefined k vs :
  pushed k (required vs) VUndefined = [ {[ k := str "missing" ]} ].
Proof. by rewrite pushed_kind. Qed.

Lemma get_empty k : get ∅ k = VUndefined.
Proof. unfold get. by rewrite lookup_empty. Qed.

Lemma Badge_empty :
  fst (run (errors h (new (Badge h) None)))
  = Normal [ {[ "version" := str "missing" ]};
             {[ "name" := str "missing" ]};
             {[ "description" := str "missing" ]};
             {[ "image" := str "missing" ]};
             {[ "criteria" := str "missing" ]} ].
Proof.
  rewrite errors_result. unfold new, Badge. per_field.
  by rewrite !get_empty, !pushed_required_undefined.
Qed.

(** C3. On an empty record the Badge model returns one [missing] entry per
    field, all five being required.  The Assertion and Issuer models return
    the [missing] entry of their required field and, besides, entries for
    their optional fields, whose validators run on [undefined]: kind
    [regexp] from [URL] and [Email], kind [isodate] from [ISODate] unless
    the host parses ["undefined"], and the message of the host's
    [TypeError] from [MaxLength]. *)
Theorem empty_record_entries :
  fst (run (errors h (new (Badge h) None)))
  = Normal [ {[ "version" := str "missing" ]};
             {[ "name" := str "missing" ]};
             {[ "description" := str "missing" ]};
             {[ "image" := str "missing" ]};
             {[ "criteria" := str "missing" ]} ]
  ∧ fst (run (errors h (new (Assertion h) None)))
    = Normal ({[ "recipient" := str "missing" ]}
              :: {[ "evidence" := str "regexp" ]}
              :: if parses h (str "undefined") then []
                 else [ {[ "expires" := str "isodate" ]};
                        {[ "issued_at" := str "isodate" ]} ])
  ∧ fst (run (errors h (new (Issuer h) None)))
    = Normal ({[ "name" := str "missing" ]}
              :: (if truthy (Some (cannot_read_property h "length" VUndefined))
                  then [ {[ "org" := cannot_read_property h "length" VUndefined ]} ]
                  else [])
              ++ [ {[ "contact" := str "regexp" ]};
                   {[ "url" := str "regexp" ]} ]).
Proof.
  split; [apply Badge_empty|].
  rewrite !errors_result. unfold new, Assertion, Issuer. per_field.
  rewrite !get_empty, !pushed_required_undefined.
  rewrite !pushed_optional_ISODate, pushed_optional_MaxLength_nullish by auto.
  assert (pushed "evidence" (optional [URL]) VUndefined
          = [ {[ "evidence" := str "regexp" ]} ]) as -> by closed.
  assert (pushed "contact" (optional [Email]) VUndefined
          = [ {[ "contact" := str "regexp" ]} ]) as -> by closed.
  assert (pushed "url" (optional [URL]) VUndefined
          = [ {[ "url" := str "regexp" ]} ]) as -> by closed.
  change (ToString VUndefined) with (str "undefined").
  split.
  - by destruct (parses h (str "undefined")).
  - by destruct (truthy _).
Qed.



(** What the validators of the file throw: a [ValidationError] of kind
    [regexp], [isodate] or [length], or the [TypeError] of reading the
    [length] of [undefined] or [null]. *)
Lemma thrown_by_validators (v : validator) input e :
  made_by_file h v -> v input = Throw e ->
  e = ValidationError (str "regexp")
  ∨ e = ValidationError (str "isodate")
  ∨ e = ValidationError (str "length")
  ∨ (e = TypeError (cannot_read_property h "length" input)
     ∧ (input = VUndefined ∨ input = VNull)).
Proof.
  intros [re| | |len|]; unfold Email, URL, RegEx, ISODate, MaxLength, try_catch.
  - destruct (negb _); intros [= <-]; auto.
  - destruct (isNaN _); intros [= <-]; auto.
  - destruct (negb _); intros [= <-]; auto.
  - destruct input as [| |b|z|s]; simpl;
      try (intros [= <-]; by auto 6);
      try (destruct (_ <? _)%Z; intros [= <-]; by auto).
  - destruct (negb (test fq_url _)); [|done].
    destruct (negb _); intros [= <-]; auto.
Qed.



End Declared.

(** ** The tests of the file, on the embedding

    The assertions of [run_tests]: each validator on the inputs the file
    itself tries, and the Badge model on an empty record. *)

Lemma MaxLength_string h len s :
  MaxLength h len (VStr s)
  = if (len <? Z.of_nat (length s))%Z
    then Throw (ValidationError (str "length"))
    else Normal tt.
Proof. reflexivity. Qed.

Example test_MaxLength h :
  let s := str "wwwwwwwwwwwwwwwwwwwwwwwwwwwwwhat" in
  MaxLength h (Z.of_nat (length s) - 1) (VStr s)
  = Throw (ValidationError (str "length"))
  ∧ MaxLength h 3 (VStr (str "www")) = Normal tt
  ∧ MaxLength h 2 (VStr (str "1")) = Normal tt
  ∧ MaxLength h 1 (VStr (str "1")) = Normal tt
  ∧ MaxLength h 2 (VStr (str "22")) = Normal tt
  ∧ MaxLength h 1 (VStr (str "22")) = Throw (ValidationError (str "length")).
Proof. cbv zeta. rewrite !MaxLength_string. repeat split. Qed.

Example test_URL :
  URL (VStr (str "http://google.com/")) = Normal tt
  ∧ URL (VStr (str "/google/bots")) = Normal tt
  ∧ URL (VStr (str "ftp://google.com/bots"))
    = Throw (ValidationError (str "regexp"))
  ∧ URL (VStr (str "https://google.com:443/")) = Normal tt.
Proof. repeat split; vm_compute; reflexivity. Qed.

(** The second character after [://] is matched by [.]: it may be a
    space, and it must be there. *)
Example URL_second_character :
  URL (VStr (str "http://a b")) = Normal tt
  ∧ URL (VStr (str "http://a")) = Throw (ValidationError (str "regexp")).
Proof. split; vm_compute; reflexivity. Qed.

Example test_ISODate :
  ISODate sample_host (VStr (str "2010-09-10")) = Normal tt
  ∧ ISODate sample_host (VStr (str "2010-09-10T21:00:00")) = Normal tt
  ∧ ISODate sample_host (VStr (str "2010-09-40"))
    = Throw (ValidationError (str "isodate"))
  ∧ ISODate sample_host (VStr (str "10000-500-10"))
    = Throw (ValidationError (str "isodate"))
  ∧ ISODate sample_host (VStr (str "2010-22-10"))
    = Throw (ValidationError (str "isodate")).
Proof. repeat split; vm_compute; reflexivity. Qed.

Example test_Email :
  Email (VStr (str "b@example.com")) = Normal tt
  ∧ Email (VStr (str "b@e.com")) = Normal tt
  ∧ Email (VStr (str "yo@domain.local.com")) = Normal tt
  ∧ Email (VStr (str "first.last@domain.local.com")) = Normal tt
  ∧ Email (VStr (str "b@ex")) = Throw (ValidationError (str "regexp"))
  ∧ Email (VStr (str "@whatlolcom")) = Throw (ValidationError (str "regexp"))
  ∧ Email (VStr (str "no-at-at-alll")) = Throw (ValidationError (str "regexp"))
  ∧ Email (VStr (str "12902@@@.com")) = Throw (ValidationError (str "regexp")).
Proof. repeat split; vm_compute; reflexivity. Qed.

Example test_Badge_missing_all_fields h :
  exists l, fst (run (errors h (new (Badge h) None))) = Normal l ∧ length l = 5.
Proof. rewrite Badge_empty. eauto. Qed.

(** ** The theorems at concrete inputs *)

Lemma required_falsy_missing_witness :
  exists l s',
    run (errors sample_host
           (Model.mk (prototype_fields (Badge sample_host))
                     {[ "name" := VStr [] ]}))
    = (Normal l, s')
    ∧ entries_for "name" l = [ {[ "name" := str "missing" ]} ]
    ∧ calls_for "name" (trace s') = [].
Proof.
  apply (required_falsy_missing sample_host
           (prototype_fields (Badge sample_host)) {[ "name" := VStr [] ]}
           "name" (required [MaxLength sample_host 128])).
  - apply (bool_decide_unpack _). vm_compute. exact I.
  - apply (bool_decide_unpack _). vm_compute. exact I.
  - reflexivity.
  - reflexivity.
  - reflexivity.
Defined.

Lemma optional_falsy_validated_witness :
  exists l s',
    run (errors sample_host
           (Model.mk (prototype_fields (Issuer sample_host))
                     {[ "name" := VStr (str "Mozilla"); "contact" := VStr [] ]}))
    = (Normal l, s')
    ∧ calls_for "contact" (trace s') = [ EvCall "contact" Email (VStr []) ]
    ∧ entries_for "contact" l = [ {[ "contact" := str "regexp" ]} ].
Proof.
  destruct (optional_falsy_validated sample_host
              (prototype_fields (Issuer sample_host))
              {[ "name" := VStr (str "Mozilla"); "contact" := VStr [] ]}
              "contact" (optional [Email]))
    as (l & s' & Hrun & Hcalls & Hentry).
  - apply (bool_decide_unpack _). vm_compute. exact I.
  - apply (bool_decide_unpack _). vm_compute. exact I.
  - reflexivity.
  - reflexivity.
  - reflexivity.
  - exists l, s'. split; [exact Hrun|]. split; [exact Hcalls|].
    apply Hentry; [vm_compute; reflexivity | discriminate].
Defined.


Lemma error_list_shape_witness :
  exists l s',
    run (errors sample_host
           (Model.mk (prototype_fields (Assertion sample_host))
                     {[ "expires" := VStr (str "2010-09-10") ]}))
    = (Normal l, s')
    ∧ (forall k, (length (entries_for k l) ≤ 1)%nat)
    ∧ exists ks,
        ks `sublist_of` ["recipient"; "evidence"; "expires"; "issued_at"]
        ∧ Forall2 (entry_of_field (prototype_fields (Assertion sample_host))
                                  {[ "expires" := VStr (str "2010-09-10") ]})
                  l ks.
Proof.
  apply (error_list_shape sample_host
           (prototype_fields (Assertion sample_host))
           {[ "expires" := VStr (str "2010-09-10") ]}).
  - apply (bool_decide_unpack _). vm_compute. exact I.
  - apply (bool_decide_unpack _). vm_compute. exact I.
Defined.

Lemma Email_lowercase_accepted_witness :
  Email (VStr (lowercase (str "Bob@example.com"))) = Normal tt
  ∧ Email (VStr (str "b@example.com")) = Normal tt
  ∧ Email (VStr (str "B@EXAMPLE.COM")) = Throw (ValidationError (str "regexp")).
Proof.
  apply (Email_lowercase_accepted (str "Bob@example.com")).
  vm_compute. reflexivity.
Defined.


(** * Further properties of the validators and of [errors] *)

(** ** Patterns without anchors *)

Section Context.

Variables pre post s : jsstring.

Lemma lookup_in_context i c :
  s !! i = Some c -> (pre ++ s ++ post) !! (length pre + i) = Some c.
Proof.
  intros Hc. rewrite lookup_app_r by lia.
  replace (length pre + i - length pre) with i by lia.
  by apply lookup_app_l_Some.
Qed.

Lemma matches_in_context r i j :
  anchor_free r = true -> matches s r i j ->
  matches (pre ++ s ++ post) r (length pre + i) (length pre + j).
Proof.
  intros Hfree Hm. revert Hfree.
  induction Hm as [i|c i Hc|negated ranges c i Hc Hmem|r1 r2 i j k _ IH1 _ IH2
                  |r1 r2 i j _ IH|r1 r2 i j _ IH|r i|r i j k _ IH1 _ IH2
                  | | |r i j _ IH]; simpl; intros Hfree; try done.
  - constructor.
  - rewrite Nat.add_succ_r. constructor. by apply lookup_in_context.
  - rewrite Nat.add_succ_r. econstructor; [by apply lookup_in_context | done].
  - apply andb_true_iff in Hfree as [H1 H2]. econstructor; eauto.
  - apply andb_true_iff in Hfree as [H1 H2]. apply M_Alt_l; auto.
  - apply andb_true_iff in Hfree as [H1 H2]. apply M_Alt_r; auto.
  - constructor.
  - eapply M_Star_step; eauto.
  - constructor; auto.
Qed.

Lemma test_in_context r :
  anchor_free r = true -> test r s = true -> test r (pre ++ s ++ post) = true.
Proof.
  intros Hfree (i & j & Hi & Hm)%test_matches. apply test_matches.
  exists (length pre + i), (length pre + j). split.
  - rewrite !length_app. lia.
  - by apply matches_in_context.
Qed.

End Context.

(** X1. [Email] and the [version] validator of Badge search their input:
    their patterns have no [^] and no [$], so a string that contains an
    accepted string is accepted, whatever surrounds it. *)
Theorem unanchored_accept_in_context (pre s post : jsstring) :
  (Email (VStr s) = Normal tt ->
   Email (VStr (pre ++ s ++ post)) = Normal tt)
  ∧ (RegEx version_regex (VStr s) = Normal tt ->
     RegEx version_regex (VStr (pre ++ s ++ post)) = Normal tt).
Proof.
  split; intros Hs; apply RegEx_accepts; apply RegEx_accepts in Hs;
    cbn [ToString] in *; by apply test_in_context.
Qed.

Lemma unanchored_accept_in_context_witness :
  Email (VStr (str "not an address <" ++ str "b@example.com" ++ str "> at all"))
  = Normal tt
  ∧ RegEx version_regex (VStr (str "xx" ++ str "1.0.d" ++ str "--")) = Normal tt.
Proof.
  split.
  - apply (unanchored_accept_in_context
             (str "not an address <") (str "b@example.com") (str "> at all")).
    vm_compute. reflexivity.
  - apply (unanchored_accept_in_context (str "xx") (str "1.0.d") (str "--")).
    vm_compute. reflexivity.
Defined.

(** ** What [Email] needs *)

Lemma email_regex_at_dot s i j :
  matches s email_regex i j ->
  exists p q, p < q ∧ s !! p = Some (code "@") ∧ s !! q = Some (code ".").
Proof.
  unfold email_regex, Plus. intros Hm. invert_matches.
  match goal with
  | Hat : s !! ?p = Some (code "@"), Hl : matches s label (S ?p) ?q,
    Hdot : s !! ?q = Some (code ".") |- _ =>
      exists p, q; split; [apply matches_bounds in Hl; lia | done]
  end.
Qed.

(** X2. A string [Email] accepts has an [@] and, somewhere after it, a
    dot. *)
Theorem Email_accepted_has_at_dot (input : value) :
  Email input = Normal tt ->
  exists p q,
    p < q ∧ ToString input !! p = Some (code "@")
    ∧ ToString input !! q = Some (code ".").
Proof.
  intros Hacc. apply RegEx_accepts, test_matches in Hacc as (i & j & _ & Hm).
  by eapply email_regex_at_dot.
Qed.

Lemma Email_accepted_has_at_dot_witness :
  exists p q,
    p < q ∧ str "b@example.com" !! p = Some (code "@")
    ∧ str "b@example.com" !! q = Some (code ".").
Proof.
  apply (Email_accepted_has_at_dot (VStr (str "b@example.com"))).
  vm_compute. reflexivity.
Defined.

(** ** Values that are not strings *)

Lemma str_cons a t : str (String a t) = N_of_ascii a :: str t.
Proof. reflexivity. Qed.

Lemma string_of_uint_digits d :
  Forall digit_or_minus (str (NilEmpty.string_of_uint d)).
Proof.
  induction d; cbn [NilEmpty.string_of_uint]; [constructor|..];
    rewrite str_cons; constructor; try done;
    right; vm_compute; split; discriminate.
Qed.

Lemma string_of_uint_zero_digits d :
  Forall digit_or_minus (str (NilZero.string_of_uint d)).
Proof.
  destruct d; try exact (string_of_uint_digits _).
  cbn [NilZero.string_of_uint]. rewrite str_cons.
  constructor; [|constructor]. right. vm_compute. split; discriminate.
Qed.

(** The string of a number is made of digits and, for a negative one, of
    a leading minus sign. *)
Lemma ToString_number z : Forall digit_or_minus (ToString (VNum z)).
Proof.
  cbn [ToString]. unfold NilZero.string_of_int.
  destruct (Z.to_int z) as [d|d].
  - apply string_of_uint_zero_digits.
  - rewrite str_cons. constructor; [by left | apply string_of_uint_zero_digits].
Qed.

Lemma ToString_number_head z c t :
  ToString (VNum z) = c :: t -> digit_or_minus c.
Proof.
  intros Heq. pose proof (ToString_number z) as Hall. rewrite Heq in Hall.
  by apply Forall_cons in Hall as [? _].
Qed.

Lemma URL_accepted_shape input :
  URL input = Normal tt ->
  absolute_shape (ToString input) ∨ relative_shape (ToString input).
Proof.
  unfold URL, RegEx, try_catch. intros Hacc.
  destruct (test fq_url (ToString input)) eqn:Hfq.
  - left. by apply fq_url_shape.
  - right. apply local_url_shape.
    by destruct (test local_url (ToString input)).
Qed.

Lemma URL_accepted_head input :
  URL input = Normal tt ->
  exists t, ToString input = code "h" :: t ∨ ToString input = code "/" :: t.
Proof.
  intros [(scheme & c & d & t & [-> | ->] & -> & _)|(t & -> & _)]%URL_accepted_shape;
    eexists; [left | left | right]; reflexivity.
Qed.

Lemma Email_rejects_number z : Email (VNum z) ≠ Normal tt.
Proof.
  intros Hacc. pose proof (ToString_number z) as Hall.
  apply RegEx_accepts, test_matches in Hacc as (i & j & _ & Hm).
  apply email_regex_at_dot in Hm as (p & q & _ & Hat & _).
  eapply Forall_lookup_1 in Hall; [|exact Hat].
  destruct Hall as [Heq|Hrange]; [discriminate Heq|].
  vm_compute in Hrange. destruct Hrange as [_ Hle]. by apply Hle.
Qed.

Lemma URL_rejects_number z : URL (VNum z) ≠ Normal tt.
Proof.
  intros Hacc.
  apply URL_accepted_head in Hacc as [t [Heq|Heq]];
    apply ToString_number_head in Heq as [Heq|Hrange];
    try discriminate Heq; vm_compute in Hrange;
    destruct Hrange as [Hge Hle]; try (by apply Hle); by apply Hge.
Qed.

Lemma RegEx_rejects re input :
  RegEx re input ≠ Normal tt ->
  RegEx re input = Throw (ValidationError (str "regexp")).
Proof. unfold RegEx. by destruct (negb _). Qed.

Lemma URL_rejects input :
  URL input ≠ Normal tt -> URL input = Throw (ValidationError (str "regexp")).
Proof.
  unfold URL, try_catch, RegEx.
  destruct (negb (test fq_url _)); [|done]. by destruct (negb _).
Qed.

(** X3. [Email] and [URL] reject [undefined], [null], the two booleans and
    every number, with the kind [regexp]: the strings ["undefined"],
    ["null"], ["true"] and ["false"] match none of the patterns, and the
    numeral of a number holds no [@] and starts with neither [h] nor
    [/]. *)
Theorem Email_URL_reject_other_scalars (b : bool) (z : Z) :
  Forall (fun input =>
            Email input = Throw (ValidationError (str "regexp"))
            ∧ URL input = Throw (ValidationError (str "regexp")))
         [VUndefined; VNull; VBool b; VNum z].
Proof.
  constructor; [split; vm_compute; reflexivity|].
  constructor; [split; vm_compute; reflexivity|].
  constructor; [destruct b; split; vm_compute; reflexivity|].
  constructor; [|constructor].
  split; [apply RegEx_rejects, Email_rejects_number
         |apply URL_rejects, URL_rejects_number].
Qed.

(** ** The pattern of the Badge [version] *)

Lemma version_regex_d s i j :
  matches s version_regex i j -> code "d" ∈ s.
Proof.
  unfold version_regex, Plus, Opt. intros Hm. invert_matches;
    match goal with
    | Hd : s !! _ = Some (code "d") |- _ => by eapply list_elem_of_lookup_2
    end.
Qed.

Lemma version_rejects_without_d input :
  code "d" ∉ ToString input ->
  RegEx version_regex input = Throw (ValidationError (str "regexp")).
Proof.
  intros Hd. unfold RegEx.
  destruct (test version_regex (ToString input)) eqn:Ht; [|done].
  apply test_matches in Ht as (i & j & _ & Hm). by apply version_regex_d in Hm.
Qed.

(** Evaluation of closed terms, and the entries of a declared model field
    by field. *)
Ltac evaluate := vm_compute; reflexivity.

Ltac fieldwise :=
  cbn [prototype_fields set_prototype_fields Model.fields Model.data default
       from_option id];
  rewrite !all_pushed_NoDup by (apply (bool_decide_unpack _); evaluate);
  cbn [flat_map fst snd].

Lemma get_Some (r : record) k v : r !! k = Some v -> get r k = v.
Proof. unfold get. by intros ->. Qed.

(** X4. The third segment of the [version] pattern is the letter [d]: the
    validator rejects every value whose string has no [d], so the Badge
    model reports [{version: "regexp"}] for every record whose version is
    such a value, a version like ["1.0.0"] included. *)
Theorem Badge_version_needs_d h (r : record) (v : value) :
  r !! "version" = Some v ->
  ToBoolean v = true ->
  code "d" ∉ ToString v ->
  RegEx version_regex v = Throw (ValidationError (str "regexp"))
  ∧ exists l,
      fst (run (errors h (new (Badge h) (Some r)))) = Normal l
      ∧ {[ "version" := str "regexp" ]} ∈ l.
Proof.
  intros Hv Hb Hd. pose proof (version_rejects_without_d v Hd) as Hrej.
  split; [done|]. rewrite errors_result. eexists. split; [reflexivity|].
  unfold new, Badge. fieldwise. rewrite (get_Some r "version" v Hv).
  apply elem_of_app. left. rewrite pushed_kind.
  unfold kind_of, required, field, failures.
  cbn [Field.required Field.validators omap list_omap]. rewrite Hb, Hrej.
  cbn. by left.
Qed.

Lemma Badge_version_needs_d_witness :
  RegEx version_regex (VStr (str "1.0.0")) = Throw (ValidationError (str "regexp"))
  ∧ exists l,
      fst (run (errors sample_host
                  (new (Badge sample_host)
                       (Some {[ "version" := VStr (str "1.0.0") ]}))))
      = Normal l
      ∧ {[ "version" := str "regexp" ]} ∈ l.
Proof.
  apply (Badge_version_needs_d sample_host
           {[ "version" := VStr (str "1.0.0") ]} (VStr (str "1.0.0"))).
  - reflexivity.
  - reflexivity.
  - apply (bool_decide_unpack _). vm_compute. exact I.
Defined.

(** ** What [URL] never accepts *)

Lemma in_ranges_app l1 l2 c :
  in_ranges (l1 ++ l2) c = in_ranges l1 c || in_ranges l2 c.
Proof. unfold in_ranges. apply existsb_app. Qed.

Lemma nonspace_not_line_terminator c :
  is_nonspace c -> in_ranges line_terminators c = false.
Proof.
  unfold is_nonspace. intros Hw.
  destruct (in_ranges line_terminators c) eqn:Hl; [|done].
  assert (Hs : in_ranges whitespace c = true); [|congruence].
  revert Hl. unfold line_terminators, whitespace.
  repeat rewrite in_ranges_cons. unfold in_ranges at 1 2. simpl existsb.
  intros [H|[H|[H|H]]]; try discriminate H; lia.
Qed.

Lemma literal_not_line_terminator (s : string) :
  Forall (fun c => (32 <= c < 128)%N) (str s) ->
  Forall (fun c => in_ranges line_terminators c = false) (str s).
Proof.
  intros Hall. eapply Forall_impl; [exact Hall|]. intros c Hc. simpl in Hc.
  destruct (in_ranges line_terminators c) eqn:Hl; [|done].
  revert Hl. unfold line_terminators.
  repeat rewrite in_ranges_cons. unfold in_ranges. simpl existsb.
  intros [H|[H|[H|H]]]; try discriminate H; lia.
Qed.

(** X5. A string [URL] accepts has at least two code units and no line
    terminator: the empty string, a lone [/] and any text with a line
    break, a trailing one included, are rejected. *)
Theorem URL_accepted_single_line (input : value) :
  URL input = Normal tt ->
  2 ≤ length (ToString input)
  ∧ Forall (fun c => in_ranges line_terminators c = false) (ToString input).
Proof.
  intros [(scheme & c & d & t & Hscheme & -> & Hc & Hd & Ht)
         |(t & -> & Hne & Ht)]%URL_accepted_shape.
  - split; [rewrite !length_app; simpl; lia|].
    assert (Hprint : Forall (fun c => in_ranges line_terminators c = false)
                            (scheme ++ str "://")).
    { destruct Hscheme as [-> | ->];
        [apply (literal_not_line_terminator "http://")
        |apply (literal_not_line_terminator "https://")];
        apply (bool_decide_unpack _); vm_compute; exact I. }
    rewrite app_assoc. apply Forall_app. split; [done|].
    constructor; [|constructor; [done|]].
    + apply nonspace_not_line_terminator. unfold is_nonspace.
      unfold url_excluded in Hc. rewrite in_ranges_app in Hc.
      by apply orb_false_iff in Hc as [? _].
    + eapply Forall_impl; [exact Ht|]. apply nonspace_not_line_terminator.
  - split; [destruct t; [done | simpl; lia]|].
    constructor; [reflexivity|].
    eapply Forall_impl; [exact Ht|]. apply nonspace_not_line_terminator.
Qed.

Lemma URL_accepted_single_line_witness :
  2 ≤ length (str "https://example.com:443/")
  ∧ Forall (fun c => in_ranges line_terminators c = false)
           (str "https://example.com:443/").
Proof.
  apply (URL_accepted_single_line (VStr (str "https://example.com:443/"))).
  vm_compute. reflexivity.
Defined.

(** ** [MaxLength] in a model *)





(** ** Which parts of a record [errors] reads *)

Lemma flat_map_agree {A B} (g1 g2 : A -> list B) (l : list A) :
  (forall x, x ∈ l -> g1 x = g2 x) -> flat_map g1 l = flat_map g2 l.
Proof.
  induction l as [|x l IH]; intros Hg; [done|]. simpl.
  rewrite (Hg x) by (by left). f_equal. apply IH. intros y Hy. apply Hg. by right.
Qed.

Lemma with_field_agree {A} fields (p1 p2 : record)
    (g : string -> Field.t -> value -> list A) k :
  get p1 k = get p2 k -> with_field fields p1 g k = with_field fields p2 g k.
Proof. unfold with_field. by intros ->. Qed.

(** X7. For a table of ordinary names, [errors] reads the record at the
    declared fields only: two records that agree there get the same list
    and cause the same validator calls, whatever other properties they
    hold. *)
Theorem errors_reads_declared_fields h fields (p1 p2 : record) :
  ordinary_names fields ->
  (forall k, k ∈ Object_keys fields -> get p1 k = get p2 k) ->
  fst (run (errors h (Model.mk fields p1)))
  = fst (run (errors h (Model.mk fields p2)))
  ∧ trace (snd (run (errors h (Model.mk fields p1))))
    = trace (snd (run (errors h (Model.mk fields p2)))).
Proof.
  intros _ Hagree. unfold run.
  destruct (errors_run h (Model.mk fields p1) initial) as [err1 ->].
  destruct (errors_run h (Model.mk fields p2) initial) as [err2 ->].
  cbn [fst snd trace Model.fields Model.data]. unfold all_pushed, all_calls.
  rewrite (flat_map_agree (with_field fields p1 pushed) (with_field fields p2 pushed)),
          (flat_map_agree (with_field fields p1 calls) (with_field fields p2 calls));
    [done|..]; intros k Hk; by apply with_field_agree, Hagree.
Qed.

Lemma errors_reads_declared_fields_witness :
  fst (run (errors sample_host
              (Model.mk (prototype_fields (Badge sample_host))
                        {[ "what" := VStr (str "lol") ]})))
  = fst (run (errors sample_host
                (Model.mk (prototype_fields (Badge sample_host)) ∅)))
  ∧ trace (snd (run (errors sample_host
                       (Model.mk (prototype_fields (Badge sample_host))
                                 {[ "what" := VStr (str "lol") ]}))))
    = trace (snd (run (errors sample_host
                         (Model.mk (prototype_fields (Badge sample_host)) ∅)))).
Proof.
  apply (errors_reads_declared_fields sample_host
           (prototype_fields (Badge sample_host))
           {[ "what" := VStr (str "lol") ]} ∅).
  - apply (bool_decide_unpack _). vm_compute. exact I.
  - intros k Hk.
    repeat (apply elem_of_cons in Hk as [->|Hk]; [vm_compute; reflexivity|]).
    by apply elem_of_nil in Hk.
Defined.

(** ** When a record is accepted *)

Lemma flat_map_nil {A B} (g : A -> list B) (l : list A) :
  flat_map g l = [] <-> forall x, x ∈ l -> g x = [].
Proof.
  induction l as [|x l IH]; simpl.
  - split; [by intros _ y ?%elem_of_nil | done].
  - rewrite app_nil, IH. split.
    + intros [Hx Hl] y [->|Hy]%elem_of_cons; auto.
    + intros Hall. split; [apply Hall; by left|].
      intros y Hy. apply Hall. by right.
Qed.

Lemma failures_nil (vs : list validator) input :
  failures vs input = [] <-> forall v : validator, v ∈ vs -> v input = Normal tt.
Proof.
  unfold failures. induction vs as [|v vs IH]; cbn [omap list_omap].
  - split; [by intros _ v' ?%elem_of_nil | done].
  - destruct (v input) as [[]|e] eqn:Hv.
    + rewrite IH. split.
      * intros Hall v' [->|Hin]%elem_of_cons; auto.
      * intros Hall v' Hin. apply Hall. by right.
    + split; [done|]. intros Hall. specialize (Hall v). rewrite Hv in Hall.
      discriminate Hall. by left.
Qed.

Lemma last_failure_message (vs : list validator) input kind :
  last (failures vs input) = Some kind ->
  exists (v : validator) e, v ∈ vs ∧ v input = Throw e ∧ message e = kind.
Proof.
  intros (v & Hv & Hm)%last_Some_elem_of%list_elem_of_omap.
  destruct (v input) as [|e] eqn:He; [done|]. exists v, e. by simplify_eq.
Qed.

(** A field pushes nothing iff it is not missing and all its validators
    accept, provided what they throw has a message. *)
Lemma pushed_nil k f input :
  (forall (v : validator) e,
      v ∈ Field.validators f -> v input = Throw e -> message e ≠ []) ->
  pushed k f input = []
  <-> (Field.required f = true -> ToBoolean input = true)
      ∧ forall v : validator, v ∈ Field.validators f -> v input = Normal tt.
Proof.
  intros Hmsg. rewrite pushed_kind. unfold kind_of.
  destruct (negb (ToBoolean input) && Field.required f) eqn:Hmiss.
  - apply andb_true_iff in Hmiss as [Hb%negb_true_iff Hr].
    split; [done|]. intros [Hreq _]. specialize (Hreq Hr). congruence.
  - assert (Hreq : Field.required f = true -> ToBoolean input = true).
    { intros Hr. rewrite Hr, andb_true_r in Hmiss. by apply negb_false_iff. }
    destruct (last (failures (Field.validators f) input)) as [kind|] eqn:Hlast.
    + destruct (last_failure_message _ _ _ Hlast) as (v & e & Hin & Hv & <-).
      destruct (message e) as [|c m] eqn:Hm; [by destruct (Hmsg v e Hin Hv)|].
      split; [done|]. intros [_ Hall]. specialize (Hall v Hin). congruence.
    + rewrite last_None, failures_nil in Hlast. by split.
Qed.

(** X8. For a table of distinct ordinary names whose validators throw
    errors that have a message, [errors] returns the empty list exactly for
    the records in which every required field is truthy and every
    validator of every field, optional ones included, accepts the field's
    value. *)
Theorem errors_empty_iff h fields provided :
  NoDup (Object_keys fields) ->
  ordinary_names fields ->
  (forall k f (v : validator) e,
      (k, f) ∈ fields -> v ∈ Field.validators f ->
      v (get provided k) = Throw e -> message e ≠ []) ->
  fst (run (errors h (Model.mk fields provided))) = Normal []
  <-> forall k f,
        (k, f) ∈ fields ->
        (Field.required f = true -> ToBoolean (get provided k) = true)
        ∧ forall v : validator,
            v ∈ Field.validators f -> v (get provided k) = Normal tt.
Proof.
  intros Hnd _ Hmsg. rewrite errors_result. cbn [Model.fields Model.data].
  rewrite all_pushed_NoDup by done.
  split.
  - intros [= Hnil]. rewrite flat_map_nil in Hnil. intros k f Hin.
    apply (pushed_nil k); [by eauto|]. exact (Hnil (k, f) Hin).
  - intros Hall. f_equal. apply flat_map_nil. intros [k f] Hin.
    apply pushed_nil; [by eauto | by apply Hall].
Qed.

Lemma errors_empty_iff_witness :
  fst (run (errors sample_host
              (Model.mk (prototype_fields (Assertion sample_host))
                        {[ "recipient" := VStr (str "b@example.com");
                           "evidence" := VStr (str "http://example.com/");
                           "expires" := VStr (str "2010-09-10");
                           "issued_at" := VStr (str "2010-09-10T21:00:00") ]})))
  = Normal [].
Proof.
  apply (errors_empty_iff sample_host).
  - apply (bool_decide_unpack _). vm_compute. exact I.
  - apply (bool_decide_unpack _). vm_compute. exact I.
  - intros k f v e Hin Hv Hthrow.
    cbn [prototype_fields Assertion set_prototype_fields] in Hin.
    repeat (apply elem_of_cons in Hin as [[= -> ->]|Hin]);
      [..|by apply elem_of_nil in Hin];
      apply list_elem_of_singleton in Hv as ->;
      vm_compute in Hthrow; discriminate Hthrow.
  - intros k f Hin.
    cbn [prototype_fields Assertion set_prototype_fields] in Hin.
    repeat (apply elem_of_cons in Hin as [[= -> ->]|Hin]);
      [..|by apply elem_of_nil in Hin];
      (split; [intros _; vm_compute; reflexivity|]);
      intros v Hv; apply list_elem_of_singleton in Hv as ->;
      vm_compute; reflexivity.
Defined.

(** ** Optional fields of the declared models *)

Lemma RegEx_throws re input e :
  RegEx re input = Throw e -> e = ValidationError (str "regexp").
Proof. unfold RegEx. destruct (negb _); [by intros [= <-] | done]. Qed.

Lemma URL_throws input e :
  URL input = Throw e -> e = ValidationError (str "regexp").
Proof.
  unfold URL, try_catch. destruct (RegEx fq_url input); [done|].
  apply RegEx_throws.
Qed.

Lemma pushed_required_nil k vs input :
  pushed k (required vs) input = [] -> ToBoolean input = true.
Proof.
  rewrite pushed_kind. unfold kind_of, required, field.
  cbn [Field.required]. by destruct (ToBoolean input).
Qed.

(** A field checked by [Email] or [URL] alone pushes nothing only when the
    record holds the field, with a value the validator accepts. *)
Lemma pushed_pattern_nil k required (v : validator) (r : record) :
  (forall input e, v input = Throw e -> e = ValidationError (str "regexp")) ->
  v VUndefined ≠ Normal tt ->
  pushed k (field required [v]) (get r k) = [] ->
  exists x, r !! k = Some x ∧ v x = Normal tt.
Proof.
  intros Hthrow Hundefined Hnil. apply pushed_nil in Hnil as [_ Hall].
  - specialize (Hall v). cbn in Hall.
    assert (Hacc : v (get r k) = Normal tt) by (apply Hall; by left).
    unfold get in Hacc. destruct (r !! k) as [x|]; simpl in Hacc; [by exists x|].
    by destruct Hundefined.
  - intros v' e ->%list_elem_of_singleton ->%Hthrow. discriminate.
Qed.

Lemma Email_undefined : Email VUndefined ≠ Normal tt.
Proof. vm_compute. discriminate. Qed.

Lemma URL_undefined : URL VUndefined ≠ Normal tt.
Proof. vm_compute. discriminate. Qed.

Lemma Assertion_pushed h (r : record) :
  all_pushed (prototype_fields (Assertion h)) r
  = pushed "recipient" (required [Email]) (get r "recipient")
    ++ pushed "evidence" (optional [URL]) (get r "evidence")
    ++ pushed "expires" (optional [ISODate h]) (get r "expires")
    ++ pushed "issued_at" (optional [ISODate h]) (get r "issued_at") ++ [].
Proof. unfold Assertion. fieldwise. reflexivity. Qed.

Lemma Issuer_pushed h (r : record) :
  all_pushed (prototype_fields (Issuer h)) r
  = pushed "name" (required [MaxLength h 128]) (get r "name")
    ++ pushed "org" (optional [MaxLength h 128]) (get r "org")
    ++ pushed "contact" (optional [Email]) (get r "contact")
    ++ pushed "url" (optional [URL]) (get r "url") ++ [].
Proof. unfold Issuer. fieldwise. reflexivity. Qed.

(** X9. The fields declared [optional] are not optional in effect.  The
    Assertion model returns the empty list only for a record that holds a
    [recipient] and an [evidence], with values that [Email] and [URL]
    accept, and whose [expires] and [issued_at] have a string form
    (["undefined"] for an absent one) that the host parses as a date; the
    Issuer model only for a record with a truthy [name] that holds a
    [contact] and a [url], with values that [Email] and [URL] accept. *)
Theorem optional_fields_needed h (r : record) :
  (fst (run (errors h (new (Assertion h) (Some r)))) = Normal [] ->
   (exists v1 v2,
       r !! "recipient" = Some v1 ∧ Email v1 = Normal tt
       ∧ r !! "evidence" = Some v2 ∧ URL v2 = Normal tt)
   ∧ parses h (ToString (get r "expires")) = true
   ∧ parses h (ToString (get r "issued_at")) = true)
  ∧ (fst (run (errors h (new (Issuer h) (Some r)))) = Normal [] ->
     ToBoolean (get r "name") = true
     ∧ exists v1 v2,
         r !! "contact" = Some v1 ∧ Email v1 = Normal tt
         ∧ r !! "url" = Some v2 ∧ URL v2 = Normal tt).
Proof.
  split; rewrite errors_result; unfold new;
    cbn [Model.fields Model.data default from_option id]; intros [= Hnil].
  - change (all_pushed (prototype_fields (Assertion h)) r = []) in Hnil.
    rewrite Assertion_pushed in Hnil.
    apply app_nil in Hnil as [Hrecipient Hnil].
    apply app_nil in Hnil as [Hevidence Hnil].
    apply app_nil in Hnil as [Hexpires Hnil].
    apply app_nil in Hnil as [Hissued _].
    apply pushed_pattern_nil in Hrecipient as (s1 & H1 & Hacc1);
      [|apply RegEx_throws | apply Email_undefined].
    apply pushed_pattern_nil in Hevidence as (s2 & H2 & Hacc2);
      [|apply URL_throws | apply URL_undefined].
    rewrite pushed_optional_ISODate in Hexpires, Hissued.
    split; [by exists s1, s2|].
    split; [by destruct (parses h (ToString (get r "expires")))
           |by destruct (parses h (ToString (get r "issued_at")))].
  - change (all_pushed (prototype_fields (Issuer h)) r = []) in Hnil.
    rewrite Issuer_pushed in Hnil.
    apply app_nil in Hnil as [Hname Hnil].
    apply app_nil in Hnil as [_ Hnil].
    apply app_nil in Hnil as [Hcontact Hnil].
    apply app_nil in Hnil as [Hurl _].
    apply pushed_required_nil in Hname.
    apply pushed_pattern_nil in Hcontact as (s1 & H1 & Hacc1);
      [|apply RegEx_throws | apply Email_undefined].
    apply pushed_pattern_nil in Hurl as (s2 & H2 & Hacc2);
      [|apply URL_throws | apply URL_undefined].
    split; [done | by exists s1, s2].
Qed.

Lemma optional_fields_needed_witness :
  (exists v1 v2,
      ({[ "recipient" := VStr (str "b@example.com");
          "evidence" := VStr (str "http://example.com/");
          "expires" := VStr (str "2010-09-10");
          "issued_at" := VStr (str "2010-09-10T21:00:00") ]} : record)
        !! "recipient" = Some v1
      ∧ Email v1 = Normal tt
      ∧ ({[ "recipient" := VStr (str "b@example.com");
            "evidence" := VStr (str "http://example.com/");
            "expires" := VStr (str "2010-09-10");
            "issued_at" := VStr (str "2010-09-10T21:00:00") ]} : record)
          !! "evidence" = Some v2
      ∧ URL v2 = Normal tt)
  ∧ exists v1 v2,
      ({[ "name" := VStr (str "Mozilla"); "org" := VStr (str "Mozilla");
          "contact" := VStr (str "b@example.com");
          "url" := VStr (str "/about") ]} : record)
        !! "contact" = Some v1
      ∧ Email v1 = Normal tt
      ∧ ({[ "name" := VStr (str "Mozilla"); "org" := VStr (str "Mozilla");
            "contact" := VStr (str "b@example.com");
            "url" := VStr (str "/about") ]} : record)
          !! "url" = Some v2
      ∧ URL v2 = Normal tt.
Proof.
  split.
  - apply (optional_fields_needed sample_host
             {[ "recipient" := VStr (str "b@example.com");
                "evidence" := VStr (str "http://example.com/");
                "expires" := VStr (str "2010-09-10");
                "issued_at" := VStr (str "2010-09-10T21:00:00") ]}).
    vm_compute. reflexivity.
  - apply (optional_fields_needed sample_host
             {[ "name" := VStr (str "Mozilla"); "org" := VStr (str "Mozilla");
                "contact" := VStr (str "b@example.com");
                "url" := VStr (str "/about") ]}).
    vm_compute. reflexivity.
Defined.

(** ** The kinds of the entries *)

(** X10. In a table of ordinary names whose validators are all made by the
    constructors of the file, every entry [errors] returns for a record of
    scalar values is [{k: kind}] for a field [k], with [kind] one of
    [missing], [regexp], [isodate] and [length], or the message of the
    [TypeError] that [MaxLength] raises when the value of [k] is
    [undefined] or [null]. *)
Theorem entry_kinds h fields provided :
  ordinary_names fields ->
  (forall k f (v : validator),
      (k, f) ∈ fields -> v ∈ Field.validators f -> made_by_file h v) ->
  exists l s',
    run (errors h (Model.mk fields provided)) = (Normal l, s')
    ∧ forall e : entry,
        e ∈ l ->
        exists k kind,
          e = {[ k := kind ]}
          ∧ (kind ∈ taxonomy
             ∨ (kind = cannot_read_property h "length" (get provided k)
                ∧ (get provided k = VUndefined ∨ get provided k = VNull))).
Proof.
  intros _ Hmade. unfold run.
  destruct (errors_run h (Model.mk fields provided) initial) as [err ->].
  eexists _, _. split; [reflexivity|]. cbn [Model.fields Model.data].
  destruct (all_pushed_shape fields provided (Object_keys fields))
    as (ks & _ & Hall).
  intros e (i & He)%list_elem_of_lookup.
  destruct (Forall2_lookup_l _ _ _ _ _ Hall He)
    as (k & _ & f & kind & Hf & -> & _ & Hrec).
  exists k, kind. split; [done|].
  destruct Hrec as [(_ & _ & ->)|(v & e & Hv & Hthrow & <-)].
  - left. unfold taxonomy. by left.
  - apply get_field_elem in Hf.
    destruct (thrown_by_validators h v _ e (Hmade k f v Hf Hv) Hthrow)
      as [-> | [-> | [-> | [-> Hnull]]]];
      [left; unfold taxonomy; cbn [message ValidationError]; set_solver ..|].
    right. by split.
Qed.

Lemma entry_kinds_witness :
  exists l s',
    run (errors sample_host
           (Model.mk (prototype_fields (Issuer sample_host))
                     {[ "name" := VStr (str "Mozilla"); "org" := VNull ]}))
    = (Normal l, s')
    ∧ forall e : entry,
        e ∈ l ->
        exists k kind,
          e = {[ k := kind ]}
          ∧ (kind ∈ taxonomy
             ∨ (kind = cannot_read_property sample_host "length"
                         (get {[ "name" := VStr (str "Mozilla"); "org" := VNull ]} k)
                ∧ (get {[ "name" := VStr (str "Mozilla"); "org" := VNull ]} k
                   = VUndefined
                   ∨ get {[ "name" := VStr (str "Mozilla"); "org" := VNull ]} k
                     = VNull))).
Proof.
  apply (entry_kinds sample_host (prototype_fields (Issuer sample_host))
           {[ "name" := VStr (str "Mozilla"); "org" := VNull ]}).
  - apply (bool_decide_unpack _). vm_compute. exact I.
  - intros k f v Hin Hv.
    cbn [prototype_fields Issuer set_prototype_fields] in Hin.
    repeat (apply elem_of_cons in Hin as [[= -> ->]|Hin]);
      [..|by apply elem_of_nil in Hin];
      apply list_elem_of_singleton in Hv as ->; constructor.
Defined.
